(** * Proto Markdown parser: a shallow embedding of [MarkdownParser.ts]

    The parser is line oriented.  Every decision it takes is the outcome of
    a JavaScript regular expression or of a string primitive ([split],
    [trim], [includes], [startsWith], [indexOf], [slice]).  The embedding
    therefore has three layers:

    - JavaScript strings as lists of UTF-16 code units, with the string
      primitives the parser calls;
    - a backtracking matcher for the fragment of the regular expression
      language the parser uses (anchors, classes, groups, alternation,
      greedy and lazy quantifiers), with the priorities of the ECMAScript
      semantics;
    - the parser itself: [parseInlineEmphasis], [parseLine], [parseCard],
      [parseContainer] and [parse], written after the source method by
      method.

    Of the two generators, [HtmlGenerator] and [ShadcnCodeGenerator], the
    embedding has the escaping of texts and the rendering of inline nodes. *)

From Stdlib Require Import List NArith Arith Bool Lia Ascii String DecimalString.
Import ListNotations.

Set Warnings "-register-all".

(** ** Strings *)

(** A JavaScript string is a sequence of 16-bit code units. *)
Definition jsstring := list N.

Definition ch (a : ascii) : N := N_of_ascii a.
Arguments ch a%_char.

Definition str (s : string) : jsstring := map N_of_ascii (list_ascii_of_string s).
Arguments str s%_string.

Fixpoint eqb_str (a b : jsstring) : bool :=
  match a, b with
  | [], [] => true
  | x :: a', y :: b' => N.eqb x y && eqb_str a' b'
  | _, _ => false
  end.

(** [WhiteSpace] and [LineTerminator] of ECMAScript: the class [\s] of a
    regular expression and the characters removed by [trim]. *)
Definition is_space (c : N) : bool :=
  ((9 <=? c) && (c <=? 13) || (c =? 32) || (c =? 160) || (c =? 5760)
   || (8192 <=? c) && (c <=? 8202) || (c =? 8232) || (c =? 8233)
   || (c =? 8239) || (c =? 8287) || (c =? 12288) || (c =? 65279))%N.

(** Line terminators, which [.] does not match. *)
Definition is_line_terminator (c : N) : bool :=
  ((c =? 10) || (c =? 13) || (c =? 8232) || (c =? 8233))%N.

Fixpoint trimStart (s : jsstring) : jsstring :=
  match s with
  | c :: t => if is_space c then trimStart t else s
  | [] => []
  end.

Definition trimEnd (s : jsstring) : jsstring := rev (trimStart (rev s)).

Definition trim (s : jsstring) : jsstring := trimEnd (trimStart s).

(** [s.split(sep)] for a one-character separator: never the empty list. *)
Fixpoint split (sep : N) (s : jsstring) : list jsstring :=
  match s with
  | [] => [[]]
  | c :: t =>
      if N.eqb c sep then [] :: split sep t
      else match split sep t with
           | h :: r => (c :: h) :: r
           | [] => [[c]]
           end
  end.

Definition includes (c : N) (s : jsstring) : bool := existsb (N.eqb c) s.

Definition startsWith (c : N) (s : jsstring) : bool :=
  match s with
  | x :: _ => N.eqb x c
  | [] => false
  end.

(** [s.indexOf(c)], with [None] for [-1]. *)
Fixpoint indexOf (c : N) (s : jsstring) : option nat :=
  match s with
  | [] => None
  | x :: t => if N.eqb x c then Some 0
              else match indexOf c t with
                   | Some i => Some (S i)
                   | None => None
                   end
  end.

(** [s.slice(a, b)] for [0 <= a]. *)
Definition slice (s : jsstring) (a b : nat) : jsstring := firstn (b - a) (skipn a s).

(** JavaScript truthiness of a string. *)
Definition truthy (s : jsstring) : bool :=
  match s with
  | [] => false
  | _ => true
  end.

(** The [.filter(x => x.length > 0)] of the cell and option lists. *)
Definition nonEmpty (l : list jsstring) : list jsstring := filter truthy l.

(** [s.split(sep).map(x => x.trim()).filter(x => x.length > 0)] *)
Definition splitTrim (sep : N) (s : jsstring) : list jsstring :=
  nonEmpty (map trim (split sep s)).

(** ** Regular expressions *)

Inductive regex : Type :=
| Chr (p : N -> bool)
| Eps
| Bol
| Eol
| Seq (a b : regex)
| Alt (a b : regex)
| Group (n : nat) (a : regex)
| Rep (greedy : bool) (lo : nat) (hi : option nat) (a : regex).

Declare Scope regex_scope.
Delimit Scope regex_scope with re.
Infix "+++" := Seq (at level 60, right associativity) : regex_scope.
Infix "<|>" := Alt (at level 70, right associativity) : regex_scope.

Definition sym (a : ascii) : regex := Chr (N.eqb (ch a)).
Definition ws : regex := Chr is_space.
Definition dot : regex := Chr (fun c => negb (is_line_terminator c)).
Definition noneOf (l : string) : regex :=
  Chr (fun c => negb (includes c (str l))).
Arguments sym a%_char.
Arguments noneOf l%_string.

Definition Star (a : regex) : regex := Rep true 0 None a.
Definition Plus (a : regex) : regex := Rep true 1 None a.
Definition Opt (a : regex) : regex := Rep true 0 (Some 1) a.
Definition LazyPlus (a : regex) : regex := Rep false 1 None a.

Fixpoint lit_chars (s : list ascii) : regex :=
  match s with
  | [] => Eps
  | [a] => sym a
  | a :: t => Seq (sym a) (lit_chars t)
  end.

Definition lit (s : string) : regex := lit_chars (list_ascii_of_string s).
Arguments lit s%_string.

(** The state of a match: the index reached, the input from there on, and
    the captures made so far (latest first), as index pairs. *)
Record mstate : Type := MState {
  m_pos : nat;
  m_rest : jsstring;
  m_caps : list (nat * (nat * nat))
}.

Definition set_cap (n a b : nat) (st : mstate) : mstate :=
  MState (m_pos st) (m_rest st) ((n, (a, b)) :: m_caps st).

Definition cont := mstate -> option mstate.

Definition pred_hi (hi : option nat) : option nat :=
  match hi with
  | Some h => Some (pred h)
  | None => None
  end.

Definition orElse (a b : option mstate) : option mstate :=
  match a with
  | Some x => Some x
  | None => b
  end.

(** RepeatMatcher: [lo] mandatory iterations, then optional ones up to
    [hi]; an optional iteration that consumes nothing is rejected; a greedy
    quantifier tries one more iteration before the continuation, a lazy one
    the continuation first. *)
Fixpoint rep_loop (m : cont -> cont) (greedy : bool) (fuel lo : nat)
    (hi : option nat) (k : cont) (st : mstate) : option mstate :=
  match fuel with
  | 0 => None
  | S fuel' =>
      match lo with
      | S lo' => m (rep_loop m greedy fuel' lo' (pred_hi hi) k) st
      | 0 =>
          match hi with
          | Some 0 => k st
          | _ =>
              let again :=
                m (fun st' =>
                     if Nat.eqb (m_pos st') (m_pos st) then None
                     else rep_loop m greedy fuel' 0 (pred_hi hi) k st') st in
              if greedy then orElse again (k st) else orElse (k st) again
          end
      end
  end.

Fixpoint rmatch (r : regex) (k : cont) (st : mstate) : option mstate :=
  match r with
  | Chr p =>
      match m_rest st with
      | c :: t => if p c then k (MState (S (m_pos st)) t (m_caps st)) else None
      | [] => None
      end
  | Eps => k st
  | Bol => if Nat.eqb (m_pos st) 0 then k st else None
  | Eol => match m_rest st with [] => k st | _ :: _ => None end
  | Seq a b => rmatch a (rmatch b k) st
  | Alt a b => orElse (rmatch a k st) (rmatch b k st)
  | Group n a => rmatch a (fun st' => k (set_cap n (m_pos st) (m_pos st') st')) st
  | Rep g lo hi a =>
      rep_loop (rmatch a) g (S (lo + List.length (m_rest st))) lo hi k st
  end.

(** The result of [RegExp.prototype.exec]. *)
Record match_result : Type := MatchResult {
  mr_input : jsstring;
  mr_index : nat;
  mr_end : nat;
  mr_caps : list (nat * (nat * nat))
}.

Fixpoint find_cap (n : nat) (caps : list (nat * (nat * nat))) : option (nat * nat) :=
  match caps with
  | [] => None
  | (i, ab) :: t => if Nat.eqb i n then Some ab else find_cap n t
  end.

(** [m[n]] when the group may be [undefined]. *)
Definition group_opt (m : match_result) (n : nat) : option jsstring :=
  match find_cap n (mr_caps m) with
  | Some (a, b) => Some (slice (mr_input m) a b)
  | None => None
  end.

(** [m[n]] of a group that takes part in every match. *)
Definition group (m : match_result) (n : nat) : jsstring :=
  match group_opt m n with
  | Some s => s
  | None => []
  end.

(** [m[0]] *)
Definition matched (m : match_result) : jsstring :=
  slice (mr_input m) (mr_index m) (mr_end m).

(** Search for the first index, from [pos] on, at which [r] matches. *)
Fixpoint exec_from (r : regex) (input : jsstring) (pos : nat) (rest : jsstring)
    : option match_result :=
  match rmatch r Some (MState pos rest []) with
  | Some st => Some (MatchResult input pos (m_pos st) (m_caps st))
  | None =>
      match rest with
      | [] => None
      | _ :: t => exec_from r input (S pos) t
      end
  end.

(** [s.match(r)] for [r] without the [g] flag. *)
Definition jsmatch (r : regex) (s : jsstring) : option match_result :=
  exec_from r s 0 s.

(** The successive matches of a [g] regular expression: after a match the
    search resumes at its end, one further when the match is empty. *)
Fixpoint matchAll_from (fuel : nat) (r : regex) (s : jsstring) (pos : nat)
    : list match_result :=
  match fuel with
  | 0 => []
  | S fuel' =>
      match exec_from r s pos (skipn pos s) with
      | Some m =>
          let next := if Nat.eqb (mr_end m) (mr_index m) then S (mr_end m) else mr_end m in
          m :: (if Nat.leb next (List.length s) then matchAll_from fuel' r s next else [])
      | None => []
      end
  end.

(** [[...s.matchAll(r)]] *)
Definition matchAll (r : regex) (s : jsstring) : list match_result :=
  matchAll_from (S (List.length s)) r s 0.

(** [s.match(r)] for [r] with the [g] flag: the matched substrings, [null]
    when there is none. *)
Definition matchGlobal (r : regex) (s : jsstring) : option (list jsstring) :=
  match matchAll r s with
  | [] => None
  | l => Some (map matched l)
  end.

(** ** The data model ([types.ts]) *)

Inductive NodeType : Type :=
| header | input | textarea | dropdown | button | text | container | card
| table | checkbox | radiogroup | grid | div | bold | italic | image
| workflow | screen.

Inductive InputType : Type := text_input | password_input.

Inductive Variant : Type := default | outline.

(** [MarkdownNode] is one interface whose optional fields depend on [type];
    each constructor carries the fields the parser sets for that type.  A
    field the parser may leave out is an [option].  [text] and [bold] nodes
    come in two shapes, with [content] or with [children]. *)
Inductive MarkdownNode : Type :=
| Header (level : nat) (children : list MarkdownNode)
| TextOf (children : list MarkdownNode)
| Text (content : jsstring)
| Bold (content : jsstring)
| BoldOf (children : list MarkdownNode)
| Italic (content : jsstring)
| Input (label : jsstring) (inputType : InputType)
| Textarea (label : jsstring)
| Dropdown (label : jsstring) (options : option (list jsstring))
| Checkbox (label : jsstring)
| Radiogroup (label : jsstring) (options : list jsstring)
| Button (content : jsstring) (variant : Variant)
    (className : option jsstring) (navigateTo : option jsstring)
| Container (children : list MarkdownNode)
| Card (titleChildren : option (list MarkdownNode)) (children : list MarkdownNode)
| Grid (gridConfig : jsstring) (children : list MarkdownNode)
| Div (className : option jsstring) (children : list MarkdownNode)
| Table (headers : list jsstring) (rows : list (list jsstring))
| Image (alt src : jsstring)
| Workflow (initialScreen : option jsstring) (children : list MarkdownNode)
| Screen (id : jsstring) (children : list MarkdownNode).

Definition type (n : MarkdownNode) : NodeType :=
  match n with
  | Header _ _ => header
  | TextOf _ | Text _ => text
  | Bold _ | BoldOf _ => bold
  | Italic _ => italic
  | Input _ _ => input
  | Textarea _ => textarea
  | Dropdown _ _ => dropdown
  | Checkbox _ => checkbox
  | Radiogroup _ _ => radiogroup
  | Button _ _ _ _ => button
  | Container _ => container
  | Card _ _ => card
  | Grid _ _ => grid
  | Div _ _ => div
  | Table _ _ => table
  | Image _ _ => image
  | Workflow _ _ => workflow
  | Screen _ _ => screen
  end.

(** The options after the constructor has filled in the defaults. *)
Record ParserOptions : Type := {
  strict : bool;
  preserveWhitespace : bool
}.

Definition defaultOptions : ParserOptions :=
  {| strict := false; preserveWhitespace := false |}.

Record ParseResult : Type := {
  nodes : list MarkdownNode;
  errors : option (list jsstring)
}.

(** ** Loops

    A [while] loop of the source is a recursion on a fuel; [OutOfFuel] is
    the only outcome that is not an outcome of the source. *)
Inductive outcome (A : Type) : Type :=
| Done (a : A)
| OutOfFuel.
Arguments Done {A} a.
Arguments OutOfFuel {A}.

Definition bind {A B : Type} (c : outcome A) (k : A -> outcome B) : outcome B :=
  match c with
  | Done a => k a
  | OutOfFuel => OutOfFuel
  end.

Notation "x <- c ;; k" := (bind c (fun x => k))
  (at level 61, c at next level, right associativity).
Notation "' p <- c ;; k" := (bind c (fun x => let 'p := x in k))
  (at level 61, p pattern, c at next level, right associativity).

(** ** The regular expressions of the parser *)

(** Each definition is preceded by the text of the source expression; where
    the source has a star directly before a closing parenthesis, the
    comment separates the two by a space. *)

Local Open Scope regex_scope.

(** Source: "/^(#{1,6})\s+(.+)$/" *)
Definition headerRe : regex :=
  Bol +++ Group 1 (Rep true 1 (Some 6) (sym "#")) +++ Plus ws
      +++ Group 2 (Plus dot) +++ Eol.

(** Source: "/(.+?)\s+(___|\|___\||__\*|__>(?:\s*\[[^\]]+\])?|__\[\])/g" *)
Definition fieldPattern : regex :=
  Group 1 (LazyPlus dot) +++ Plus ws
    +++ Group 2 (lit "___"
                 <|> lit "|___|"
                 <|> lit "__*"
                 <|> (lit "__>" +++ Opt (Star ws +++ sym "[" +++ Plus (noneOf "]") +++ sym "]"))
                 <|> lit "__[]").

(** Source: "/\[([^\]]+)\]/" *)
Definition optionsRe : regex :=
  sym "[" +++ Group 1 (Plus (noneOf "]")) +++ sym "]".

(** Source: "/^(.+?)\s+__\*$/" *)
Definition passwordRe : regex :=
  Bol +++ Group 1 (LazyPlus dot) +++ Plus ws +++ lit "__*" +++ Eol.

(** Source: "/^(.+?)\s+\|___\|$/" *)
Definition textareaRe : regex :=
  Bol +++ Group 1 (LazyPlus dot) +++ Plus ws +++ lit "|___|" +++ Eol.

(** Source: "/^(.+?)\s+___$/" *)
Definition inputRe : regex :=
  Bol +++ Group 1 (LazyPlus dot) +++ Plus ws +++ lit "___" +++ Eol.

(** Source: "/^(.+?)\s+__\[\]$/" *)
Definition checkboxRe : regex :=
  Bol +++ Group 1 (LazyPlus dot) +++ Plus ws +++ lit "__[]" +++ Eol.

(** Source: "/^(.+?)\s+__\(\)\s+\[(.+?)\]$/" *)
Definition radioGroupRe : regex :=
  Bol +++ Group 1 (LazyPlus dot) +++ Plus ws +++ lit "__()" +++ Plus ws
      +++ sym "[" +++ Group 2 (LazyPlus dot) +++ sym "]" +++ Eol.

(** Source: "/^(.+?)\s+__>\s+\[(.+?)\]$/" *)
Definition dropdownWithOptionsRe : regex :=
  Bol +++ Group 1 (LazyPlus dot) +++ Plus ws +++ lit "__>" +++ Plus ws
      +++ sym "[" +++ Group 2 (LazyPlus dot) +++ sym "]" +++ Eol.

(** Source: "/^(.+?)\s+__>$/" *)
Definition dropdownRe : regex :=
  Bol +++ Group 1 (LazyPlus dot) +++ Plus ws +++ lit "__>" +++ Eol.

(** Source: "/^!\[([^\]]* )\]\(([^)]+)\)$/" *)
Definition imageRe : regex :=
  Bol +++ sym "!" +++ sym "[" +++ Group 1 (Star (noneOf "]")) +++ sym "]"
      +++ sym "(" +++ Group 2 (Plus (noneOf ")")) +++ sym ")" +++ Eol.

(** Source: "/^(\[\(?[^\[\]|]+\)?\]\s* )+$/" *)
Definition multiButtonRe : regex :=
  Bol +++ Plus (Group 1 (sym "[" +++ Opt (sym "(") +++ Plus (noneOf "[]|")
                           +++ Opt (sym ")") +++ sym "]" +++ Star ws))
      +++ Eol.

(** Source: "/\[(\(?)[^\[\]|]+?(\)?)\]/g" *)
Definition buttonsRe : regex :=
  sym "[" +++ Group 1 (Opt (sym "(")) +++ LazyPlus (noneOf "[]|")
      +++ Group 2 (Opt (sym ")")) +++ sym "]".

(** Source: "/\[(\(?)(.+?)(\)?)\]/" *)
Definition innerRe : regex :=
  sym "[" +++ Group 1 (Opt (sym "(")) +++ Group 2 (LazyPlus dot)
      +++ Group 3 (Opt (sym ")")) +++ sym "]".

(** Source: "/^\[\((.+?)\)(?:\s*\|\s*(.+))?\]$/" *)
Definition defaultButtonRe : regex :=
  Bol +++ sym "[" +++ sym "(" +++ Group 1 (LazyPlus dot) +++ sym ")"
      +++ Opt (Star ws +++ sym "|" +++ Star ws +++ Group 2 (Plus dot))
      +++ sym "]" +++ Eol.

(** Source: "/^\[([^|]+?)(?:\s*\|\s*(.+))?\]$/" *)
Definition buttonRe : regex :=
  Bol +++ sym "[" +++ Group 1 (LazyPlus (noneOf "|"))
      +++ Opt (Star ws +++ sym "|" +++ Star ws +++ Group 2 (Plus dot))
      +++ sym "]" +++ Eol.

(** Source: "/^\[--\s*(.* )$/" *)
Definition cardRe : regex :=
  Bol +++ lit "[--" +++ Star ws +++ Group 1 (Star dot) +++ Eol.

(** Source: "/^\[grid\s+(.* )$/" *)
Definition gridRe : regex :=
  Bol +++ lit "[grid" +++ Plus ws +++ Group 1 (Star dot) +++ Eol.

(** Source: "/^\[\s*(.* )$/" *)
Definition divRe : regex :=
  Bol +++ sym "[" +++ Star ws +++ Group 1 (Star dot) +++ Eol.

(** Source: "/^_\*(.+?)\*_/" *)
Definition boldItalicRe : regex :=
  Bol +++ lit "_*" +++ Group 1 (LazyPlus dot) +++ lit "*_".

(** Source: "/^\*(.+?)\*/" *)
Definition boldRe : regex :=
  Bol +++ sym "*" +++ Group 1 (LazyPlus dot) +++ sym "*".

(** Source: "/^_(.+?)_/" *)
Definition italicRe : regex :=
  Bol +++ sym "_" +++ Group 1 (LazyPlus dot) +++ sym "_".

Local Close Scope regex_scope.

(** ** [parseInlineEmphasis] *)

(** One iteration of the tokenizer loop at [position < remaining.length]:
    the node pushed and the new position. *)
Definition emphasisStep (remaining : jsstring) (position : nat) : MarkdownNode * nat :=
  let rest := skipn position remaining in
  match jsmatch boldItalicRe rest with
  | Some boldItalicMatch =>
      (BoldOf [Italic (group boldItalicMatch 1)],
       position + List.length (matched boldItalicMatch))
  | None =>
  match jsmatch boldRe rest with
  | Some boldMatch =>
      (Bold (group boldMatch 1), position + List.length (matched boldMatch))
  | None =>
  match jsmatch italicRe rest with
  | Some italicMatch =>
      (Italic (group italicMatch 1), position + List.length (matched italicMatch))
  | None =>
      let nextAsterisk := indexOf (ch "*") rest in
      let nextUnderscore := indexOf (ch "_") rest in
      let nextMarker :=
        match nextAsterisk, nextUnderscore with
        | Some a, Some u => Some (Nat.min a u)
        | Some a, None => Some a
        | None, Some u => Some u
        | None, None => None
        end in
      let textEnd :=
        match nextMarker with
        | None => List.length remaining
        | Some n => position + n
        end in
      if Nat.ltb position textEnd
      then (Text (slice remaining position textEnd), textEnd)
      else (Text (slice remaining position (position + 1)), position + 1)
  end end end.

Fixpoint emphasisLoop (fuel : nat) (remaining : jsstring) (position : nat)
    (nodes : list MarkdownNode) : outcome (list MarkdownNode) :=
  if Nat.ltb position (List.length remaining) then
    match fuel with
    | 0 => OutOfFuel
    | S fuel' =>
        let '(node, position') := emphasisStep remaining position in
        emphasisLoop fuel' remaining position' (nodes ++ [node])
    end
  else Done nodes.

Definition parseInlineEmphasis (text : jsstring) : outcome (list MarkdownNode) :=
  emphasisLoop (List.length text) text 0 [].

(** ** [parseLine] *)

Fixpoint startsWithStr (prefix s : jsstring) : bool :=
  match prefix, s with
  | [], _ => true
  | p :: prefix', c :: s' => N.eqb c p && startsWithStr prefix' s'
  | _ :: _, [] => false
  end.

(** The callback of [fieldMatches.map]. *)
Definition fieldNode (m : match_result) : MarkdownNode :=
  let label := trim (group m 1) in
  let marker := group m 2 in
  if eqb_str marker (str "__*") then Input label password_input
  else if eqb_str marker (str "|___|") then Textarea label
  else if eqb_str marker (str "__[]") then Checkbox label
  else if startsWithStr (str "__>") marker then
    match jsmatch optionsRe marker with
    | Some optionsMatch => Dropdown label (Some (splitTrim (ch ",") (group optionsMatch 1)))
    | None => Dropdown label None
    end
  else Input label text_input.

(** The callback of [buttons.map]. *)
Definition buttonNode (btn : jsstring) : MarkdownNode :=
  match jsmatch innerRe btn with
  | Some innerMatch =>
      let isDefault := eqb_str (group innerMatch 1) (str "(")
                       && eqb_str (group innerMatch 3) (str ")") in
      Button (group innerMatch 2) (if isDefault then default else outline) None None
  | None => Button (slice btn 1 (List.length btn - 1)) outline None None
  end.

(** [m[n]?.trim()] followed by [...(className && { className })]. *)
Definition classNameOf (m : match_result) (n : nat) : option jsstring :=
  match group_opt m n with
  | Some s => if truthy (trim s) then Some (trim s) else None
  | None => None
  end.

(** The multi-button rule: [Some] when it returns, [None] when control
    falls through to the single-button rules. *)
Definition multiButton (line : jsstring) : option MarkdownNode :=
  match jsmatch multiButtonRe line with
  | Some _ =>
      match matchGlobal buttonsRe line with
      | Some buttons =>
          if Nat.ltb 1 (List.length buttons)
          then Some (Container (map buttonNode buttons))
          else None
      | None => None
      end
  | None => None
  end.

(** The result is [MarkdownNode | null]: [Some] of a node, or [None]. *)
Definition parseLine (line : jsstring) : outcome (option MarkdownNode) :=
  match jsmatch headerRe line with
  | Some headerMatch =>
      children <- parseInlineEmphasis (group headerMatch 2) ;;
      Done (Some (Header (List.length (group headerMatch 1)) children))
  | None =>
  let fieldMatches := matchAll fieldPattern line in
  if Nat.ltb 1 (List.length fieldMatches)
  then Done (Some (Container (map fieldNode fieldMatches)))
  else
  match jsmatch passwordRe line with
  | Some passwordMatch => Done (Some (Input (group passwordMatch 1) password_input))
  | None =>
  match jsmatch textareaRe line with
  | Some textareaMatch => Done (Some (Textarea (group textareaMatch 1)))
  | None =>
  match jsmatch inputRe line with
  | Some inputMatch => Done (Some (Input (group inputMatch 1) text_input))
  | None =>
  match jsmatch checkboxRe line with
  | Some checkboxMatch => Done (Some (Checkbox (group checkboxMatch 1)))
  | None =>
  match jsmatch radioGroupRe line with
  | Some radioGroupMatch =>
      Done (Some (Radiogroup (group radioGroupMatch 1)
                    (splitTrim (ch ",") (group radioGroupMatch 2))))
  | None =>
  match jsmatch dropdownWithOptionsRe line with
  | Some dropdownWithOptionsMatch =>
      Done (Some (Dropdown (group dropdownWithOptionsMatch 1)
                    (Some (splitTrim (ch ",") (group dropdownWithOptionsMatch 2)))))
  | None =>
  match jsmatch dropdownRe line with
  | Some dropdownMatch => Done (Some (Dropdown (group dropdownMatch 1) None))
  | None =>
  match jsmatch imageRe line with
  | Some imageMatch => Done (Some (Image (group imageMatch 1) (group imageMatch 2)))
  | None =>
  match multiButton line with
  | Some node => Done (Some node)
  | None =>
  match jsmatch defaultButtonRe line with
  | Some defaultButtonMatch =>
      Done (Some (Button (group defaultButtonMatch 1) default
                    (classNameOf defaultButtonMatch 2) None))
  | None =>
  match jsmatch buttonRe line with
  | Some buttonMatch =>
      Done (Some (Button (trim (group buttonMatch 1)) outline
                    (classNameOf buttonMatch 2) None))
  | None =>
      children <- parseInlineEmphasis line ;;
      Done (Some (TextOf children))
  end end end end end end end end end end end end.

(** ** [parseCard] and [parseContainer] *)

(** [this.options.preserveWhitespace ? l : l.trim()] *)
Definition lineOf (opts : ParserOptions) (l : jsstring) : jsstring :=
  if preserveWhitespace opts then l else trim l.

Definition lineAt (opts : ParserOptions) (lines : list jsstring) (i : nat) : jsstring :=
  lineOf opts (nth i lines []).

(** [m[1] || undefined] *)
Definition orUndefined (s : jsstring) : option jsstring :=
  if truthy s then Some s else None.

(** The [type] parameter of [parseContainer]. *)
Inductive GridOrDiv : Type := grid_type | div_type.

(** The node built by [parseContainer] once the children are known. *)
Definition containerNode (type : GridOrDiv) (config : jsstring)
    (containerChildren : list MarkdownNode) : MarkdownNode :=
  match type with
  | grid_type => Grid config containerChildren
  | div_type => Div (orUndefined config) containerChildren
  end.

(** [title ? this.parseInlineEmphasis(title) : undefined] *)
Definition titleChildrenOf (title : option jsstring) : outcome (option (list MarkdownNode)) :=
  match title with
  | Some t =>
      if truthy t then (c <- parseInlineEmphasis t ;; Done (Some c)) else Done None
  | None => Done None
  end.

(** [parseLine] of a non-empty line, pushed when it is not [null]. *)
Definition pushLine (line : jsstring) (children : list MarkdownNode)
    : outcome (list MarkdownNode) :=
  if truthy line then
    childNode <- parseLine line ;;
    Done (match childNode with
          | Some n => children ++ [n]
          | None => children
          end)
  else Done children.

(** The two methods call each other; [cardLoop] and [containerLoop] are
    their [while] loops, from the state [(i, depth, children)] to the
    state at the exit of the loop. *)
Fixpoint parseCard (fuel : nat) (opts : ParserOptions) (lines : list jsstring)
    (startIndex : nat) (title : option jsstring) {struct fuel}
    : outcome (MarkdownNode * nat) :=
  match fuel with
  | 0 => OutOfFuel
  | S fuel' =>
      '(cardChildren, i) <- cardLoop fuel' opts lines (startIndex + 1) 1 [] ;;
      titleChildren <- titleChildrenOf title ;;
      Done (Card titleChildren cardChildren, i + 1)
  end

with cardLoop (fuel : nat) (opts : ParserOptions) (lines : list jsstring)
    (i depth : nat) (cardChildren : list MarkdownNode) {struct fuel}
    : outcome (list MarkdownNode * nat) :=
  match fuel with
  | 0 => OutOfFuel
  | S fuel' =>
      if Nat.ltb i (List.length lines) && Nat.ltb 0 depth then
        let cardLine := lineAt opts lines i in
        let closing := eqb_str cardLine (str "--]") in
        let depth' := if closing then depth - 1 else depth in
        if closing && Nat.eqb depth' 0 then Done (cardChildren, i)
        else
        match jsmatch cardRe cardLine with
        | Some m =>
            '(node, nextIndex) <- parseCard fuel' opts lines i (orUndefined (group m 1)) ;;
            cardLoop fuel' opts lines nextIndex depth' (cardChildren ++ [node])
        | None =>
        match jsmatch gridRe cardLine with
        | Some m =>
            '(node, nextIndex) <- parseContainer fuel' opts lines i grid_type (group m 1) ;;
            cardLoop fuel' opts lines nextIndex depth' (cardChildren ++ [node])
        | None =>
        match jsmatch divRe cardLine, includes (ch "]") cardLine with
        | Some m, false =>
            '(node, nextIndex) <- parseContainer fuel' opts lines i div_type (group m 1) ;;
            cardLoop fuel' opts lines nextIndex depth' (cardChildren ++ [node])
        | _, _ =>
            children <- pushLine cardLine cardChildren ;;
            cardLoop fuel' opts lines (i + 1) depth' children
        end end end
      else Done (cardChildren, i)
  end

with parseContainer (fuel : nat) (opts : ParserOptions) (lines : list jsstring)
    (startIndex : nat) (type : GridOrDiv) (config : jsstring) {struct fuel}
    : outcome (MarkdownNode * nat) :=
  match fuel with
  | 0 => OutOfFuel
  | S fuel' =>
      '(containerChildren, i) <- containerLoop fuel' opts lines (startIndex + 1) 1 [] ;;
      Done (containerNode type config containerChildren, i + 1)
  end

with containerLoop (fuel : nat) (opts : ParserOptions) (lines : list jsstring)
    (i depth : nat) (containerChildren : list MarkdownNode) {struct fuel}
    : outcome (list MarkdownNode * nat) :=
  match fuel with
  | 0 => OutOfFuel
  | S fuel' =>
      if Nat.ltb i (List.length lines) && Nat.ltb 0 depth then
        let containerLine := lineAt opts lines i in
        let closing := eqb_str containerLine (str "]") in
        let depth' := if closing then depth - 1 else depth in
        if closing && Nat.eqb depth' 0 then Done (containerChildren, i)
        else
        match jsmatch cardRe containerLine with
        | Some m =>
            '(node, nextIndex) <- parseCard fuel' opts lines i (orUndefined (group m 1)) ;;
            containerLoop fuel' opts lines nextIndex depth' (containerChildren ++ [node])
        | None =>
        match jsmatch gridRe containerLine with
        | Some m =>
            '(node, nextIndex) <- parseContainer fuel' opts lines i grid_type (group m 1) ;;
            containerLoop fuel' opts lines nextIndex depth' (containerChildren ++ [node])
        | None =>
        match jsmatch divRe containerLine, includes (ch "]") containerLine with
        | Some m, false =>
            '(node, nextIndex) <- parseContainer fuel' opts lines i div_type (group m 1) ;;
            containerLoop fuel' opts lines nextIndex depth' (containerChildren ++ [node])
        | _, _ =>
            children <- pushLine containerLine containerChildren ;;
            containerLoop fuel' opts lines (i + 1) depth' children
        end end end
      else Done (containerChildren, i)
  end.

(** ** [parse] *)

(** [line.includes("|") && line.trim().startsWith("|")] *)
Definition isTableLine (line : jsstring) : bool :=
  includes (ch "|") line && startsWith (ch "|") (trim line).

(** The loop over the rows of a table; [rest] is [lines] from index [i]. *)
Fixpoint tableRows (opts : ParserOptions) (rest : list jsstring) (i : nat)
    (rows : list (list jsstring)) : list (list jsstring) * nat :=
  match rest with
  | [] => (rows, i)
  | l :: rest' =>
      let rowLine := lineOf opts l in
      if negb (truthy rowLine) || negb (includes (ch "|") rowLine) then (rows, i)
      else tableRows opts rest' (i + 1) (rows ++ [splitTrim (ch "|") rowLine])
  end.

(** The index after the optional separator line. *)
Definition skipSeparator (opts : ParserOptions) (lines : list jsstring) (i : nat) : nat :=
  if Nat.ltb i (List.length lines) then
    let separatorLine := lineAt opts lines i in
    if includes (ch "-") separatorLine && includes (ch "|") separatorLine
    then i + 1 else i
  else i.

Definition decimal (n : nat) : jsstring :=
  str (NilEmpty.string_of_uint (Nat.to_uint n)).

(** The diagnostic of strict mode; 34 is the double quote. *)
Definition unableToParse (i : nat) (line : jsstring) : jsstring :=
  str "Line " ++ decimal (i + 1) ++ str ": Unable to parse " ++ [34%N] ++ line ++ [34%N].

(** The state of the loop of [parse]. *)
Record ParseState : Type := {
  ps_i : nat;
  ps_nodes : list MarkdownNode;
  ps_errors : list jsstring
}.

(** One iteration of the loop of [parse], at [i < lines.length]. *)
Definition parseStep (fuel : nat) (opts : ParserOptions) (lines : list jsstring)
    (st : ParseState) : outcome ParseState :=
  let i := ps_i st in
  let nodes := ps_nodes st in
  let errors := ps_errors st in
  let line := lineAt opts lines i in
  if negb (truthy line) then Done {| ps_i := i + 1; ps_nodes := nodes; ps_errors := errors |}
  else if isTableLine line then
    let headers := splitTrim (ch "|") line in
    let '(rows, i') :=
      let i1 := skipSeparator opts lines (i + 1) in
      tableRows opts (skipn i1 lines) i1 [] in
    Done {| ps_i := i'; ps_nodes := nodes ++ [Table headers rows]; ps_errors := errors |}
  else
  match jsmatch cardRe line with
  | Some cardMatch =>
      '(node, nextIndex) <- parseCard fuel opts lines i (orUndefined (group cardMatch 1)) ;;
      Done {| ps_i := nextIndex; ps_nodes := nodes ++ [node]; ps_errors := errors |}
  | None =>
  match jsmatch gridRe line with
  | Some gridMatch =>
      '(node, nextIndex) <- parseContainer fuel opts lines i grid_type (group gridMatch 1) ;;
      Done {| ps_i := nextIndex; ps_nodes := nodes ++ [node]; ps_errors := errors |}
  | None =>
  match jsmatch divRe line, includes (ch "]") line with
  | Some divMatch, false =>
      '(node, nextIndex) <- parseContainer fuel opts lines i div_type (group divMatch 1) ;;
      Done {| ps_i := nextIndex; ps_nodes := nodes ++ [node]; ps_errors := errors |}
  | _, _ =>
      node <- parseLine line ;;
      Done (match node with
            | Some n => {| ps_i := i + 1; ps_nodes := nodes ++ [n]; ps_errors := errors |}
            | None =>
                {| ps_i := i + 1; ps_nodes := nodes;
                   ps_errors := if strict opts then errors ++ [unableToParse i line]
                                else errors |}
            end)
  end end end.

Fixpoint parseLoop (fuel : nat) (opts : ParserOptions) (lines : list jsstring)
    (st : ParseState) : outcome ParseState :=
  if Nat.ltb (ps_i st) (List.length lines) then
    match fuel with
    | 0 => OutOfFuel
    | S fuel' =>
        st' <- parseStep fuel' opts lines st ;;
        parseLoop fuel' opts lines st'
    end
  else Done st.

Definition parse (opts : ParserOptions) (markdown : jsstring) : outcome ParseResult :=
  let lines := split 10 markdown in
  st <- parseLoop (2 * List.length lines + 1) opts lines
          {| ps_i := 0; ps_nodes := []; ps_errors := [] |} ;;
  Done {| nodes := ps_nodes st;
          errors := match ps_errors st with
                    | [] => None
                    | e => Some e
                    end |}.

(** ** The vocabulary of the statements *)

(** [st'] lies ahead of [st] in the same input. *)
Definition reach (st st' : mstate) : Prop :=
  exists w, m_rest st = w ++ m_rest st' /\ m_pos st' = m_pos st + List.length w.

(** [den r st st'] says that [r] can take the matcher from [st] to [st']:
    the relation the backtracking search explores, without its
    priorities.  Every result of [rmatch] is in it. *)
Fixpoint iter (n : nat) (R : mstate -> mstate -> Prop) (st st' : mstate) : Prop :=
  match n with
  | 0 => st' = st
  | S n' => exists mid, R st mid /\ iter n' R mid st'
  end.

Fixpoint den (r : regex) (st st' : mstate) : Prop :=
  match r with
  | Chr p =>
      exists c t, m_rest st = c :: t /\ p c = true
                  /\ st' = MState (S (m_pos st)) t (m_caps st)
  | Eps => st' = st
  | Bol => m_pos st = 0 /\ st' = st
  | Eol => m_rest st = [] /\ st' = st
  | Seq a b => exists mid, den a st mid /\ den b mid st'
  | Alt a b => den a st st' \/ den b st st'
  | Group n a => exists mid, den a st mid /\ st' = set_cap n (m_pos st) (m_pos mid) mid
  | Rep _ lo hi a =>
      exists n, lo <= n /\ (forall h, hi = Some h -> n <= Nat.max lo h)
                /\ iter n (den a) st st'
  end.

(** What a block parser returns, with enough fuel: the node of the block
    and an index past the block; when that index is within the input, the
    line before it is the closing token. *)
Definition blockResult (opts : ParserOptions) (lines : list jsstring)
    (closer : jsstring) (startIndex : nat) (r : MarkdownNode * nat) : Prop :=
  startIndex + 2 <= snd r
  /\ (snd r <= List.length lines ->
      eqb_str (lineAt opts lines (snd r - 1)) closer = true).

Definition loopResult (opts : ParserOptions) (lines : list jsstring)
    (closer : jsstring) (i : nat) (r : list MarkdownNode * nat) : Prop :=
  i <= snd r
  /\ (snd r < List.length lines ->
      eqb_str (lineAt opts lines (snd r)) closer = true).

Definition blocksTotalAt (fuel : nat) (opts : ParserOptions) (lines : list jsstring) : Prop :=
  (forall startIndex title,
      2 * (List.length lines - startIndex - 1) + 2 <= fuel ->
      exists tc cs next,
        parseCard fuel opts lines startIndex title = Done (Card tc cs, next)
        /\ blockResult opts lines (str "--]") startIndex (Card tc cs, next))
  /\ (forall i depth cs0,
      2 * (List.length lines - i) + 1 <= fuel -> 0 < depth ->
      exists r, cardLoop fuel opts lines i depth cs0 = Done r
                /\ loopResult opts lines (str "--]") i r)
  /\ (forall startIndex type config,
      2 * (List.length lines - startIndex - 1) + 2 <= fuel ->
      exists cs next,
        parseContainer fuel opts lines startIndex type config
          = Done (containerNode type config cs, next)
        /\ blockResult opts lines (str "]") startIndex (containerNode type config cs, next))
  /\ (forall i depth cs0,
      2 * (List.length lines - i) + 1 <= fuel -> 0 < depth ->
      exists r, containerLoop fuel opts lines i depth cs0 = Done r
                /\ loopResult opts lines (str "]") i r).

(** The emphasised text of the claim on bold italic: not empty, on one
    line, without an asterisk. *)
Definition emphasisText (X : jsstring) : bool :=
  truthy X && forallb (fun c => negb (is_line_terminator c) && negb (N.eqb c (ch "*"))) X.

(** The types of the nodes the classifier returns. *)
Definition lineType (t : NodeType) : bool :=
  match t with
  | header | container | input | textarea | checkbox | radiogroup
  | dropdown | image | button | text => true
  | _ => false
  end.

Fixpoint takeWhile {A : Type} (f : A -> bool) (l : list A) : list A :=
  match l with
  | [] => []
  | x :: t => if f x then x :: takeWhile f t else []
  end.

(** A row of a table: a line that is not blank and contains a pipe. *)
Definition isRowLine (rowLine : jsstring) : bool :=
  truthy rowLine && includes (ch "|") rowLine.

(** The rows of a table, as the claim words them: the consecutive lines,
    from the given ones, that are rows. *)
Definition rowRun (opts : ParserOptions) (rest : list jsstring) : list jsstring :=
  takeWhile isRowLine (map (lineOf opts) rest).

(** The test the claim states: the line begins with a pipe and contains
    at least one more. *)
Definition tableStartClaimed (line : jsstring) : bool :=
  startsWith (ch "|") line && Nat.leb 2 (List.length (filter (N.eqb (ch "|")) line)).

(** Every match of [r] starts where the character [c] still lies ahead. *)
Definition requires (c : N) (r : regex) : Prop :=
  forall st st', den r st st' -> In c (m_rest st).




(** The types of the nodes at the top level of a result. *)
Definition topType (t : NodeType) : bool :=
  match t with
  | table | card | grid | div => true
  | _ => lineType t
  end.

(** A button without navigation target. *)
Definition plainButton (n : MarkdownNode) : Prop :=
  match n with
  | Button _ _ _ navigateTo => navigateTo = None
  | _ => True
  end.

(** A node of the classifier without navigation target: a button, or
    the buttons of a container. *)
Definition noNavigation (n : MarkdownNode) : Prop :=
  match n with
  | Container children => Forall plainButton children
  | _ => plainButton n
  end.



(** Line feed, the separator of [markdown.split]. *)
Definition lf : jsstring := [10%N].

(** The workflow of the claim C3, with the screens [a], [b] and [c]. *)
Definition workflowABC : jsstring :=
  str "[workflow" ++ lf
  ++ str "[screen a" ++ lf ++ str "]" ++ lf
  ++ str "[screen b" ++ lf ++ str "]" ++ lf
  ++ str "[screen c" ++ lf ++ str "]" ++ lf
  ++ str "]".

(** The source text of an inline node: its content between the markers
    of its kind. *)
Definition inlineSource (n : MarkdownNode) : jsstring :=
  match n with
  | Text c => c
  | Bold c => str "*" ++ c ++ str "*"
  | Italic c => str "_" ++ c ++ str "_"
  | BoldOf [Italic c] => str "_*" ++ c ++ str "*_"
  | _ => []
  end.

(** An emphasis marker. *)
Definition isMarker (c : N) : bool := N.eqb c (ch "*") || N.eqb c (ch "_").

(** The content of an emphasis node: not empty and on one line. *)
Definition emphasisContent (c : jsstring) : bool :=
  truthy c && forallb (fun x => negb (is_line_terminator x)) c.

(** The nodes the tokenizer builds: a text that is not empty and is free of
    markers or is one marker alone, a bold or an italic node with a
    content, a bold node around one italic node. *)
Definition inlineToken (n : MarkdownNode) : bool :=
  match n with
  | Text c =>
      truthy c && (forallb (fun x => negb (isMarker x)) c
                   || match c with [x] => isMarker x | _ => false end)
  | Bold c | Italic c | BoldOf [Italic c] => emphasisContent c
  | _ => false
  end.

(** [n] number signs. *)
Definition hashes (n : nat) : jsstring := repeat (ch "#") n.


(** A cell of a table or an entry of an option list: not empty, without
    white space at either end, and without the separator. *)
Definition cellOf (sep : N) (c : jsstring) : Prop :=
  c <> [] /\ trim c = c /\ includes sep c = false.

(** The types of the children of a card, a grid or a plain block. *)
Definition blockChildType (t : NodeType) : bool :=
  match t with
  | card | grid | div => true
  | _ => lineType t
  end.

(** At every depth below [n], the children of a card, a grid or a plain
    block are blocks of these kinds or nodes of the classifier: never a
    table. *)
Fixpoint blocksWellFormed (n : MarkdownNode) : bool :=
  match n with
  | Card _ children | Grid _ children | Div _ children =>
      (fix all (l : list MarkdownNode) : bool :=
         match l with
         | [] => true
         | x :: t => blockChildType (type x) && blocksWellFormed x && all t
         end) children
  | _ => true
  end.

Definition blockChild (x : MarkdownNode) : bool :=
  blockChildType (type x) && blocksWellFormed x.

(** The cells of a table node: non-empty, trimmed, without [|]. *)
Definition tableCells (n : MarkdownNode) : Prop :=
  match n with
  | Table headers rows =>
      Forall (cellOf (ch "|")) headers /\ Forall (Forall (cellOf (ch "|"))) rows
  | _ => True
  end.

(** The options carried by a node. *)
Definition optionsOf (n : MarkdownNode) : list jsstring :=
  match n with
  | Radiogroup _ options => options
  | Dropdown _ (Some options) => options
  | _ => []
  end.

(** The options of a node of the classifier, and of the fields of a
    container: non-empty, trimmed, without comma. *)
Definition lineOptions (n : MarkdownNode) : Prop :=
  match n with
  | Container children => Forall (fun c => Forall (cellOf (ch ",")) (optionsOf c)) children
  | _ => Forall (cellOf (ch ",")) (optionsOf n)
  end.

(** The number of lines from index [i] on that are not blank. *)
Definition nonBlankFrom (opts : ParserOptions) (lines : list jsstring) (i : nat) : nat :=
  List.length (filter truthy (map (lineOf opts) (skipn i lines))).

(** ** The generators *)

(** [s.replace(r, replacement)] for [r] with the [g] flag and a replacement
    without dollar sign: the text between the successive matches is kept,
    and each match gives way to the replacement. *)
Fixpoint replaceMatches (s : jsstring) (pos : nat) (ms : list match_result)
    (replacement : jsstring) : jsstring :=
  match ms with
  | [] => slice s pos (List.length s)
  | m :: ms' =>
      slice s pos (mr_index m) ++ replacement
        ++ replaceMatches s (mr_end m) ms' replacement
  end.

Definition replace (r : regex) (replacement s : jsstring) : jsstring :=
  replaceMatches s 0 (matchAll r s) replacement.

(** The double quote. *)
Definition dquote : N := 34.

(** [escapeHtml] of [HtmlGenerator]: five passes, the ampersand first. *)
Definition escapeHtml (text : jsstring) : jsstring :=
  replace (sym "'") (str "&#039;")
    (replace (Chr (N.eqb dquote)) (str "&quot;")
      (replace (sym ">") (str "&gt;")
        (replace (sym "<") (str "&lt;")
          (replace (sym "&") (str "&amp;") text)))).

(** [escapeJSX] of [ShadcnCodeGenerator]: six passes, the ampersand first. *)
Definition escapeJSX (text : jsstring) : jsstring :=
  replace (sym "}") (str "&#125;")
    (replace (sym "{") (str "&#123;")
      (replace (Chr (N.eqb dquote)) (str "&quot;")
        (replace (sym ">") (str "&gt;")
          (replace (sym "<") (str "&lt;")
            (replace (sym "&") (str "&amp;") text))))).

(** What one character becomes. *)
Definition htmlEntity (c : N) : jsstring :=
  if N.eqb (ch "&") c then str "&amp;"
  else if N.eqb (ch "<") c then str "&lt;"
  else if N.eqb (ch ">") c then str "&gt;"
  else if N.eqb dquote c then str "&quot;"
  else if N.eqb (ch "'") c then str "&#039;"
  else [c].

Definition jsxEntity (c : N) : jsstring :=
  if N.eqb (ch "&") c then str "&amp;"
  else if N.eqb (ch "<") c then str "&lt;"
  else if N.eqb (ch ">") c then str "&gt;"
  else if N.eqb dquote c then str "&quot;"
  else if N.eqb (ch "{") c then str "&#123;"
  else if N.eqb (ch "}") c then str "&#125;"
  else [c].

(** The characters [escapeHtml] and [escapeJSX] replace. *)
Definition htmlSpecial (c : N) : bool :=
  N.eqb (ch "&") c || N.eqb (ch "<") c || N.eqb (ch ">") c || N.eqb dquote c
  || N.eqb (ch "'") c.

Definition jsxSpecial (c : N) : bool :=
  N.eqb (ch "&") c || N.eqb (ch "<") c || N.eqb (ch ">") c || N.eqb dquote c
  || N.eqb (ch "{") c || N.eqb (ch "}") c.

(** [renderInlineNode] of [HtmlGenerator]; a node without [content] gives
    the empty text, and an italic node has no children in the data model
    of the parser. *)
Fixpoint renderInlineNode (node : MarkdownNode) : jsstring :=
  match node with
  | Bold content => str "<strong>" ++ escapeHtml content ++ str "</strong>"
  | BoldOf children =>
      match children with
      | [] => str "<strong>" ++ escapeHtml [] ++ str "</strong>"
      | _ => str "<strong>" ++ List.concat (map renderInlineNode children) ++ str "</strong>"
      end
  | Italic content => str "<em>" ++ escapeHtml content ++ str "</em>"
  | TextOf children =>
      match children with
      | [] => escapeHtml []
      | _ => List.concat (map renderInlineNode children)
      end
  | Text content => escapeHtml content
  | Button content _ _ _ => escapeHtml content
  | _ => escapeHtml []
  end.

(** [nodes.map((node) => this.renderInlineNode(node)).join("")] *)
Definition renderInlineNodes (nodes : list MarkdownNode) : jsstring :=
  List.concat (map renderInlineNode nodes).

(** Inline HTML: characters that need no escaping, the entities of the
    escaped ones, and balanced [strong] and [em] elements. *)
Inductive inlineHtml : jsstring -> Prop :=
| inlineHtml_nil : inlineHtml []
| inlineHtml_char c w :
    htmlSpecial c = false -> inlineHtml w -> inlineHtml (c :: w)
| inlineHtml_entity c w :
    htmlSpecial c = true -> inlineHtml w -> inlineHtml (htmlEntity c ++ w)
| inlineHtml_strong a w :
    inlineHtml a -> inlineHtml w ->
    inlineHtml (str "<strong>" ++ a ++ str "</strong>" ++ w)
| inlineHtml_em a w :
    inlineHtml a -> inlineHtml w ->
    inlineHtml (str "<em>" ++ a ++ str "</em>" ++ w).

(** [generateInlineNode] of [ShadcnCodeGenerator];
    [children.map((child, i) => this.generateInlineNode(child, i)).join("")]
    is the inner loop, [a || b] on texts the test [truthy]. *)
Fixpoint generateInlineNode (node : MarkdownNode) (index : nat) : jsstring :=
  let joined :=
    fix joined (children : list MarkdownNode) (i : nat) : jsstring :=
      match children with
      | [] => []
      | child :: rest => generateInlineNode child i ++ joined rest (S i)
      end in
  match node with
  | Bold content =>
      str "<strong key={" ++ decimal index ++ str "}>" ++ escapeJSX content ++ str "</strong>"
  | BoldOf children =>
      let boldContent :=
        if truthy (joined children 0) then joined children 0 else escapeJSX [] in
      str "<strong key={" ++ decimal index ++ str "}>" ++ boldContent ++ str "</strong>"
  | Italic content =>
      str "<em key={" ++ decimal index ++ str "}>" ++ escapeJSX content ++ str "</em>"
  | TextOf children =>
      match children with
      | [] => escapeJSX []
      | _ => joined children 0
      end
  | Text content => escapeJSX content
  | Button content _ _ _ => escapeJSX content
  | _ => escapeJSX []
  end.

(** Inline JSX: characters that need no escaping, the entities of the
    escaped ones, and balanced keyed [strong] and [em] elements. *)
Inductive inlineJsx : jsstring -> Prop :=
| inlineJsx_nil : inlineJsx []
| inlineJsx_char c w :
    jsxSpecial c = false -> inlineJsx w -> inlineJsx (c :: w)
| inlineJsx_entity c w :
    jsxSpecial c = true -> inlineJsx w -> inlineJsx (jsxEntity c ++ w)
| inlineJsx_strong i a w :
    inlineJsx a -> inlineJsx w ->
    inlineJsx (str "<strong key={" ++ decimal i ++ str "}>" ++ a ++ str "</strong>" ++ w)
| inlineJsx_em i a w :
    inlineJsx a -> inlineJsx w ->
    inlineJsx (str "<em key={" ++ decimal i ++ str "}>" ++ a ++ str "</em>" ++ w).

(** ** The matcher is sound for [den] *)

Section RepLoop.
Variable m : cont -> cont.
Variable R : mstate -> mstate -> Prop.
Hypothesis m_sound : forall k st x,
  m k st = Some x -> exists st', R st st' /\ k st' = Some x.

Lemma rep_loop_sound g fuel : forall lo hi k st x,
  rep_loop m g fuel lo hi k st = Some x ->
  exists n st', lo <= n /\ (forall h, hi = Some h -> n <= Nat.max lo h)
                /\ iter n R st st' /\ k st' = Some x.
Proof.
  induction fuel as [|fuel IH]; intros lo hi k st x H; [discriminate|].
  cbn [rep_loop] in H. destruct lo as [|lo].
  - assert (Hk : k st = Some x ->
                 exists n st', 0 <= n /\ (forall h, hi = Some h -> n <= Nat.max 0 h)
                               /\ iter n R st st' /\ k st' = Some x).
    { intro Hk. exists 0, st. repeat split; auto; intros; lia. }
    assert (Hagain :
      m (fun st' => if Nat.eqb (m_pos st') (m_pos st) then None
                    else rep_loop m g fuel 0 (pred_hi hi) k st') st = Some x ->
      (forall h, hi = Some h -> 0 < h) ->
      exists n st', 0 <= n /\ (forall h, hi = Some h -> n <= Nat.max 0 h)
                    /\ iter n R st st' /\ k st' = Some x).
    { intros Hm Hhi. apply m_sound in Hm. destruct Hm as (mid & HR & Hrest).
      destruct (Nat.eqb (m_pos mid) (m_pos st)); [discriminate|].
      apply IH in Hrest. destruct Hrest as (n & st' & _ & Hb & Hit & Hk').
      exists (S n), st'. repeat split; auto; try lia.
      - intros h Hh. specialize (Hhi h Hh). subst hi. cbn in Hb.
        specialize (Hb (pred h) eq_refl). lia.
      - exists mid. auto. }
    destruct hi as [[|h]|].
    + auto.
    + destruct g; cbn [orElse] in H.
      * match type of H with orElse ?a _ = _ => destruct a eqn:E end; cbn in H.
        -- inversion H; subst. apply Hagain; auto. intros ? [= <-]. lia.
        -- auto.
      * destruct (k st) eqn:E; cbn in H.
        -- inversion H; subst. auto.
        -- apply Hagain; auto. intros ? [= <-]. lia.
    + destruct g; cbn [orElse] in H.
      * match type of H with orElse ?a _ = _ => destruct a eqn:E end; cbn in H.
        -- inversion H; subst. apply Hagain; auto. intros ? [=].
        -- auto.
      * destruct (k st) eqn:E; cbn in H.
        -- inversion H; subst. auto.
        -- apply Hagain; auto. intros ? [=].
  - apply m_sound in H. destruct H as (mid & HR & Hrest).
    apply IH in Hrest. destruct Hrest as (n & st' & Hlo & Hb & Hit & Hk').
    exists (S n), st'. repeat split; auto; try lia.
    + intros h ->. cbn in Hb. specialize (Hb (pred h) eq_refl). lia.
    + exists mid. auto.
Qed.
End RepLoop.

Lemma rmatch_sound r : forall k st x,
  rmatch r k st = Some x -> exists st', den r st st' /\ k st' = Some x.
Proof.
  induction r as [p| | | |a IHa b IHb|a IHa b IHb|n a IHa|g lo hi a IHa];
    intros k st x H; cbn [rmatch] in H; cbn [den].
  - destruct (m_rest st) as [|c t] eqn:E; [discriminate|].
    destruct (p c) eqn:Ep; [|discriminate]. eauto 8.
  - eauto.
  - destruct (Nat.eqb (m_pos st) 0) eqn:E; [|discriminate].
    apply Nat.eqb_eq in E. eauto.
  - destruct (m_rest st) eqn:E; [|discriminate]. eauto.
  - apply IHa in H. destruct H as (mid & Ha & H).
    apply IHb in H. destruct H as (st' & Hb & H). eauto.
  - destruct (rmatch a k st) eqn:E; cbn in H.
    + inversion H; subst. apply IHa in E. destruct E as (st' & ? & ?). eauto.
    + apply IHb in H. destruct H as (st' & ? & ?). eauto.
  - apply IHa in H. destruct H as (mid & Ha & H). eauto.
  - apply rep_loop_sound with (R := den a) in H; [|exact IHa].
    destruct H as (n & st' & ? & ? & ? & ?). eauto 8.
Qed.

(** ** The fuel of a quantifier is enough

    A continuation is only called on states that lie ahead, and an
    optional iteration has to consume a character: the loop of a quantifier
    gives the same result with any larger fuel, so that a failure of
    [rmatch] is a failure of the search. *)

Lemma reach_refl st : reach st st.
Proof. exists []. cbn. split; auto. Qed.

Lemma reach_trans a b c : reach a b -> reach b c -> reach a c.
Proof.
  intros (w1 & E1 & P1) (w2 & E2 & P2). exists (w1 ++ w2).
  rewrite E1, E2, <- app_assoc, length_app. split; auto. lia.
Qed.

Lemma reach_length st st' :
  reach st st' -> List.length (m_rest st') <= List.length (m_rest st)
                  /\ (m_pos st' <> m_pos st ->
                      List.length (m_rest st') < List.length (m_rest st)).
Proof.
  intros (w & E & P). rewrite E, length_app. split; [lia|].
  intro Hne. destruct w; cbn in *; lia.
Qed.

Section Locality.
Variable m : cont -> cont.
Hypothesis m_local : forall k1 k2 st,
  (forall st', reach st st' -> k1 st' = k2 st') -> m k1 st = m k2 st.

Lemma rep_loop_local g fuel : forall lo hi k1 k2 st,
  (forall st', reach st st' -> k1 st' = k2 st') ->
  rep_loop m g fuel lo hi k1 st = rep_loop m g fuel lo hi k2 st.
Proof.
  induction fuel as [|fuel IH]; intros lo hi k1 k2 st Hk; [reflexivity|].
  cbn [rep_loop]. destruct lo as [|lo].
  - assert (Ha : m (fun st' => if Nat.eqb (m_pos st') (m_pos st) then None
                               else rep_loop m g fuel 0 (pred_hi hi) k1 st') st
                 = m (fun st' => if Nat.eqb (m_pos st') (m_pos st) then None
                                 else rep_loop m g fuel 0 (pred_hi hi) k2 st') st).
    { apply m_local. intros st' Hr. destruct (Nat.eqb _ _); [reflexivity|].
      apply IH. intros st2 Hr2. apply Hk. eapply reach_trans; eauto. }
    rewrite Ha, (Hk st (reach_refl st)). reflexivity.
  - apply m_local. intros st' Hr. apply IH. intros st2 Hr2. apply Hk.
    eapply reach_trans; eauto.
Qed.

Lemma rep_loop_fuel g : forall f1 f2 lo hi k st,
  lo + List.length (m_rest st) < f1 ->
  lo + List.length (m_rest st) < f2 ->
  rep_loop m g f1 lo hi k st = rep_loop m g f2 lo hi k st.
Proof.
  induction f1 as [|f1 IH]; intros f2 lo hi k st H1 H2; [lia|].
  destruct f2 as [|f2]; [lia|]. cbn [rep_loop]. destruct lo as [|lo].
  - assert (Ha : m (fun st' => if Nat.eqb (m_pos st') (m_pos st) then None
                               else rep_loop m g f1 0 (pred_hi hi) k st') st
                 = m (fun st' => if Nat.eqb (m_pos st') (m_pos st) then None
                                 else rep_loop m g f2 0 (pred_hi hi) k st') st).
    { apply m_local. intros st' Hr. destruct (Nat.eqb _ _) eqn:E; [reflexivity|].
      apply Nat.eqb_neq in E. apply reach_length in Hr. destruct Hr as [_ Hr].
      specialize (Hr E). apply IH; cbn in *; lia. }
    rewrite Ha. reflexivity.
  - apply m_local. intros st' Hr. apply reach_length in Hr. destruct Hr as [Hr _].
    apply IH; cbn in *; lia.
Qed.
End Locality.

Lemma rmatch_local r : forall k1 k2 st,
  (forall st', reach st st' -> k1 st' = k2 st') -> rmatch r k1 st = rmatch r k2 st.
Proof.
  induction r as [p| | | |a IHa b IHb|a IHa b IHb|n a IHa|g lo hi a IHa];
    intros k1 k2 st Hk; cbn [rmatch].
  - destruct (m_rest st) as [|c t] eqn:E; [reflexivity|].
    destruct (p c); [|reflexivity]. apply Hk. exists [c]. cbn. split; [exact E|lia].
  - apply Hk, reach_refl.
  - destruct (Nat.eqb _ _); [|reflexivity]. apply Hk, reach_refl.
  - destruct (m_rest st); [|reflexivity]. apply Hk, reach_refl.
  - apply IHa. intros mid Hr. apply IHb. intros st' Hr'. apply Hk.
    eapply reach_trans; eauto.
  - rewrite (IHa k1 k2 st Hk), (IHb k1 k2 st Hk). reflexivity.
  - apply IHa. intros st' Hr. apply Hk. destruct Hr as (w & E & P).
    exists w. cbn. auto.
  - apply rep_loop_local; assumption.
Qed.

Lemma rmatch_fuel g lo hi a k st extra :
  rep_loop (rmatch a) g (S (lo + List.length (m_rest st)) + extra) lo hi k st
  = rmatch (Rep g lo hi a) k st.
Proof. cbn [rmatch]. apply rep_loop_fuel; [apply rmatch_local|lia|lia]. Qed.

(** A match consumes a prefix of the remaining input and moves the index
    by its length. *)
Lemma iter_suffix (R : mstate -> mstate -> Prop) :
  (forall st st', R st st' ->
     exists w, m_rest st = w ++ m_rest st' /\ m_pos st' = m_pos st + List.length w) ->
  forall n st st', iter n R st st' ->
     exists w, m_rest st = w ++ m_rest st' /\ m_pos st' = m_pos st + List.length w.
Proof.
  intros HR n. induction n as [|n IH]; intros st st' H; cbn in H.
  - subst. exists []. cbn. split; auto.
  - destruct H as (mid & H1 & H2). apply HR in H1. apply IH in H2.
    destruct H1 as (w1 & E1 & P1), H2 as (w2 & E2 & P2).
    exists (w1 ++ w2). rewrite E1, E2, <- app_assoc, length_app. split; auto. lia.
Qed.

Lemma den_suffix r : forall st st', den r st st' ->
  exists w, m_rest st = w ++ m_rest st' /\ m_pos st' = m_pos st + List.length w.
Proof.
  induction r as [p| | | |a IHa b IHb|a IHa b IHb|n a IHa|g lo hi a IHa];
    intros st st' H; cbn [den] in H.
  - destruct H as (c & t & E & _ & ->). exists [c]. cbn. split; auto. lia.
  - subst. exists []. cbn. auto.
  - destruct H as [_ ->]. exists []. cbn. auto.
  - destruct H as [_ ->]. exists []. cbn. auto.
  - destruct H as (mid & Ha & Hb). apply IHa in Ha. apply IHb in Hb.
    destruct Ha as (w1 & E1 & P1), Hb as (w2 & E2 & P2).
    exists (w1 ++ w2). rewrite E1, E2, <- app_assoc, length_app. split; auto. lia.
  - destruct H as [H|H]; auto.
  - destruct H as (mid & Ha & ->). apply IHa in Ha. exact Ha.
  - destruct H as (n & _ & _ & H). revert H. apply iter_suffix. exact IHa.
Qed.

Lemma den_pos_le r st st' : den r st st' -> m_pos st <= m_pos st'.
Proof. intro H. apply den_suffix in H. destruct H as (w & _ & ->). lia. Qed.

(** A quantified character class consumes a word of the class and leaves
    the captures alone. *)
Lemma iter_chr p : forall n st st', iter n (den (Chr p)) st st' ->
  exists w rest', List.length w = n /\ forallb p w = true
            /\ m_rest st = w ++ rest'
            /\ st' = MState (m_pos st + n) rest' (m_caps st).
Proof.
  induction n as [|n IH]; intros st st' H; cbn [iter] in H.
  - subst. exists [], (m_rest st). cbn. rewrite Nat.add_0_r. destruct st; auto.
  - destruct H as (mid & H1 & H2). cbn [den] in H1.
    destruct H1 as (c & t & E & Hp & ->). apply IH in H2. cbn in H2.
    destruct H2 as (w & rest' & L & F & E2 & ->).
    exists (c :: w), rest'. cbn. rewrite Hp, F, L, E, E2. repeat split; auto.
    f_equal. lia.
Qed.

Lemma den_rep_chr g lo hi p st st' :
  den (Rep g lo hi (Chr p)) st st' ->
  exists w rest', lo <= List.length w
            /\ (forall h, hi = Some h -> List.length w <= Nat.max lo h)
            /\ forallb p w = true
            /\ m_rest st = w ++ rest'
            /\ st' = MState (m_pos st + List.length w) rest' (m_caps st).
Proof.
  cbn [den]. intros (n & Hlo & Hhi & H). apply iter_chr in H.
  destruct H as (w & rest' & L & F & E & ->). subst n. exists w, rest'. auto.
Qed.

(** [exec] returns a match of the expression at the index it reports. *)
Lemma exec_from_sound r input : forall rest pos m,
  exec_from r input pos rest = Some m ->
  exists k st', k <= List.length rest
    /\ den r (MState (pos + k) (skipn k rest) []) st'
    /\ m = MatchResult input (pos + k) (m_pos st') (m_caps st').
Proof.
  induction rest as [|c rest IH]; intros pos m H; cbn [exec_from] in H.
  - destruct (rmatch r Some (MState pos [] [])) eqn:E; [|discriminate].
    apply rmatch_sound in E. destruct E as (st' & Hd & [= <-]).
    inversion H; subst. exists 0, st'. rewrite Nat.add_0_r. cbn. auto.
  - destruct (rmatch r Some (MState pos (c :: rest) [])) eqn:E.
    + apply rmatch_sound in E. destruct E as (st' & Hd & [= <-]).
      inversion H; subst. exists 0, st'. rewrite Nat.add_0_r. cbn. split; [lia|auto].
    + apply IH in H. destruct H as (k & st' & Hk & Hd & ->).
      exists (S k), st'. rewrite Nat.add_succ_r. cbn. split; [lia|auto].
Qed.

(** The fuel of [matchAll] is enough: the search resumes further on after
    every match. *)
Lemma matchAll_from_fuel r s : forall f1 f2 pos,
  List.length s - pos < f1 -> List.length s - pos < f2 ->
  matchAll_from f1 r s pos = matchAll_from f2 r s pos.
Proof.
  induction f1 as [|f1 IH]; intros f2 pos H1 H2; [lia|].
  destruct f2 as [|f2]; [lia|]. cbn [matchAll_from].
  destruct (exec_from r s pos (skipn pos s)) as [m|] eqn:E; [|reflexivity].
  apply exec_from_sound in E. destruct E as (k & st' & _ & Hd & ->).
  apply den_pos_le in Hd. cbn [m_pos mr_index mr_end] in *. f_equal.
  destruct (Nat.leb _ _) eqn:El; [|reflexivity]. apply Nat.leb_le in El.
  destruct (Nat.eqb (m_pos st') (pos + k)) eqn:Ee.
  - apply IH; lia.
  - apply Nat.eqb_neq in Ee. apply IH; lia.
Qed.

(** An expression that begins with [^] matches at index 0 only. *)
Lemma jsmatch_anchored r s m :
  jsmatch (Seq Bol r) s = Some m ->
  exists st', den r (MState 0 s []) st'
              /\ m = MatchResult s 0 (m_pos st') (m_caps st').
Proof.
  unfold jsmatch. intro H. apply exec_from_sound in H.
  destruct H as (k & st' & _ & Hd & ->). cbn [den] in Hd.
  destruct Hd as (mid & [Hp ->] & Hd). cbn in Hp. subst k. cbn in Hd.
  exists st'. auto.
Qed.

Lemma jsmatch_sound r s m :
  jsmatch r s = Some m ->
  exists k st', k <= List.length s
    /\ den r (MState k (skipn k s) []) st'
    /\ m = MatchResult s k (m_pos st') (m_caps st').
Proof. unfold jsmatch. intro H. apply exec_from_sound in H. exact H. Qed.

Lemma slice_app (pre w post : jsstring) :
  slice (pre ++ w ++ post) (List.length pre) (List.length pre + List.length w) = w.
Proof.
  unfold slice. rewrite skipn_app, skipn_all, Nat.sub_diag. cbn.
  replace (List.length pre + List.length w - List.length pre) with (List.length w + 0) by lia.
  rewrite firstn_app_2. cbn. apply app_nil_r.
Qed.

Lemma slice_0 (w post : jsstring) : slice (w ++ post) 0 (List.length w) = w.
Proof. exact (slice_app [] w post). Qed.

(** The text matched by an anchored expression is the prefix consumed. *)
Lemma matched_anchored r s m :
  jsmatch (Seq Bol r) s = Some m ->
  exists st' w, den r (MState 0 s []) st'
    /\ s = w ++ m_rest st' /\ m_pos st' = List.length w
    /\ matched m = w /\ mr_caps m = m_caps st' /\ mr_input m = s.
Proof.
  intro H. apply jsmatch_anchored in H. destruct H as (st' & Hd & ->).
  destruct (den_suffix _ _ _ Hd) as (w & E & P). cbn in E, P.
  exists st', w. repeat split; auto.
  unfold matched; cbn. rewrite P, E. apply slice_0.
Qed.

(** ** Termination of the tokenizer *)

Lemma den_seq_inv a b st st' :
  den (Seq a b) st st' -> exists mid, den a st mid /\ den b mid st'.
Proof. exact (fun H => H). Qed.

Lemma den_sym_pos p st st' : den (Chr p) st st' -> m_pos st' = S (m_pos st).
Proof. cbn. intros (c & t & _ & _ & ->). reflexivity. Qed.

(** An anchored expression that begins with a character matches at least
    one character. *)
Lemma matched_nonempty p r s m :
  jsmatch (Seq Bol (Seq (Chr p) r)) s = Some m -> 1 <= List.length (matched m).
Proof.
  intro H. apply matched_anchored in H.
  destruct H as (st' & w & Hd & _ & P & -> & _).
  apply den_seq_inv in Hd. destruct Hd as (mid & H1 & H2).
  apply den_sym_pos in H1. apply den_pos_le in H2. cbn in H1. lia.
Qed.

Lemma boldItalic_nonempty s m :
  jsmatch boldItalicRe s = Some m -> 1 <= List.length (matched m).
Proof.
  intro H. apply matched_anchored in H.
  destruct H as (st' & w & Hd & _ & P & -> & _).
  apply den_seq_inv in Hd. destruct Hd as (mid & H1 & H2).
  apply den_seq_inv in H1. destruct H1 as (mid1 & H1 & H1').
  apply den_sym_pos in H1. apply den_pos_le in H1'. apply den_pos_le in H2.
  cbn in H1. lia.
Qed.

(** Every iteration of the loop advances the position. *)
Lemma emphasisStep_progress remaining position :
  position < snd (emphasisStep remaining position).
Proof.
  unfold emphasisStep.
  destruct (jsmatch boldItalicRe _) eqn:E1.
  { apply boldItalic_nonempty in E1. cbn. lia. }
  destruct (jsmatch boldRe _) eqn:E2.
  { apply matched_nonempty in E2. cbn. lia. }
  destruct (jsmatch italicRe _) eqn:E3.
  { apply matched_nonempty in E3. cbn. lia. }
  match goal with |- context [Nat.ltb ?a ?b] => destruct (Nat.ltb a b) eqn:E end;
    cbn [snd]; [apply Nat.ltb_lt; exact E | lia].
Qed.

Lemma emphasisLoop_total fuel : forall remaining position nodes,
  List.length remaining - position <= fuel ->
  exists l, emphasisLoop fuel remaining position nodes = Done l.
Proof.
  induction fuel as [|fuel IH]; intros remaining position nodes Hf.
  - cbn [emphasisLoop]. destruct (Nat.ltb position (List.length remaining)) eqn:E; eauto.
    apply Nat.ltb_lt in E. lia.
  - cbn [emphasisLoop].
    destruct (Nat.ltb position (List.length remaining)) eqn:E; eauto.
    pose proof (emphasisStep_progress remaining position) as Hp.
    destruct (emphasisStep remaining position) as [node position']. cbn in Hp.
    apply IH. lia.
Qed.

Lemma parseInlineEmphasis_total text : exists l, parseInlineEmphasis text = Done l.
Proof. apply emphasisLoop_total. lia. Qed.

(** ** The classifier and the block parsers are total *)

Lemma parseLine_total line : exists n, parseLine line = Done (Some n).
Proof.
  unfold parseLine.
  repeat match goal with
         | |- context [match ?x with _ => _ end] =>
             match x with
             | parseInlineEmphasis _ => fail 1
             | _ => destruct x
             end
         end;
    try solve [eexists; reflexivity];
    match goal with
    | |- context [parseInlineEmphasis ?t] =>
        destruct (parseInlineEmphasis_total t) as (l & ->); cbn; eauto
    end.
Qed.

Lemma titleChildrenOf_total title : exists tc, titleChildrenOf title = Done tc.
Proof.
  unfold titleChildrenOf. destruct title as [t|]; eauto.
  destruct (truthy t); eauto.
  destruct (parseInlineEmphasis_total t) as (l & ->). cbn. eauto.
Qed.

Lemma pushLine_total line children : exists cs, pushLine line children = Done cs.
Proof.
  unfold pushLine. destruct (truthy line); eauto.
  destruct (parseLine_total line) as (n & ->). cbn. eauto.
Qed.

(** The part of a loop body after the test for the closing token. *)
Ltac loop_tail IHloop :=
  cbn [bind];
  match goal with
  | |- exists r, ?h ?j ?d ?c = Done r /\ _ =>
      let r := fresh "r" in
      let Hr1 := fresh "Hr" in
      let Hr2 := fresh "Hr" in
      destruct (IHloop j d c) as (r & -> & Hr1 & Hr2); unfold loopResult in *;
        [unfold blockResult in *; cbn [snd] in *; lia | lia |];
      exists r; split; [reflexivity|]; split;
        [unfold blockResult in *; cbn [snd] in *; lia | exact Hr2]
  end.

Ltac loop_rest IHcard IHloop IHcont :=
  let go_card :=
    (match goal with
     | |- context [parseCard ?f ?o ?l ?i ?t] =>
         let Hb := fresh "Hb" in
         destruct (IHcard i t) as (? & ? & ? & -> & Hb & _); [lia|]
     end; loop_tail IHloop) in
  let go_cont :=
    (match goal with
     | |- context [parseContainer ?f ?o ?l ?i ?ty ?c] =>
         let Hb := fresh "Hb" in
         destruct (IHcont i ty c) as (? & ? & -> & Hb & _); [lia|]
     end; loop_tail IHloop) in
  let go_line :=
    (match goal with
     | |- context [pushLine ?l ?c] => destruct (pushLine_total l c) as (? & ->)
     end; loop_tail IHloop) in
  destruct (jsmatch cardRe _); [go_card|];
  destruct (jsmatch gridRe _); [go_cont|];
  destruct (jsmatch divRe _);
    [destruct (includes _ _); [go_line | go_cont] | go_line].

Ltac loop_body IHcard IHloop IHcont :=
  unfold loopResult;
  let Hi := fresh "Hi" in
  let Hd := fresh "Hd" in
  let Hc := fresh "Hc" in
  let Hz := fresh "Hz" in
  intros i depth cs0 Hf Hdepth;
  destruct (Nat.ltb i (List.length _)) eqn:Hi;
    [ apply Nat.ltb_lt in Hi
    | apply Nat.ltb_ge in Hi; cbn [andb];
      eexists; split; [reflexivity|]; split; cbn [snd]; [lia | intro; lia] ];
  destruct (Nat.ltb 0 depth) eqn:Hd; [|apply Nat.ltb_ge in Hd; lia];
  cbn [andb];
  destruct (eqb_str (lineAt _ _ i) _) eqn:Hc; cbn [andb];
    [ destruct (Nat.eqb (depth - 1) 0) eqn:Hz;
      [ eexists; split; [reflexivity|]; split; cbn [snd]; [lia | intro; exact Hc]
      | apply Nat.eqb_neq in Hz; loop_rest IHcard IHloop IHcont ]
    | loop_rest IHcard IHloop IHcont ].

Lemma blocks_total opts lines : forall fuel, blocksTotalAt fuel opts lines.
Proof.
  induction fuel as [|fuel (IHcard & IHcloop & IHcont & IHkloop)];
    unfold blocksTotalAt; repeat split; try (intros; lia).
  - (* parseCard *)
    intros startIndex title Hf. cbn [parseCard].
    destruct (IHcloop (startIndex + 1) 1 []) as ([cs i] & -> & Hr1 & Hr2); [lia|lia|].
    cbn [bind]. destruct (titleChildrenOf_total title) as (tc & ->). cbn [bind].
    exists tc, cs, (i + 1). split; [reflexivity|]. unfold blockResult, loopResult in *. cbn [snd] in *.
    split; [lia|]. intro Hn. replace (i + 1 - 1) with i by lia. apply Hr2. lia.
  - (* cardLoop *)
    cbn [cardLoop]. loop_body IHcard IHcloop IHcont.
  - (* parseContainer *)
    intros startIndex type config Hf. cbn [parseContainer].
    destruct (IHkloop (startIndex + 1) 1 []) as ([cs i] & -> & Hr1 & Hr2); [lia|lia|].
    cbn [bind]. exists cs, (i + 1). split; [reflexivity|]. unfold blockResult, loopResult in *. cbn [snd] in *.
    split; [lia|]. intro Hn. replace (i + 1 - 1) with i by lia. apply Hr2. lia.
  - (* containerLoop *)
    cbn [containerLoop]. loop_body IHcard IHkloop IHcont.
Qed.

(** ** [parse] is total and records no diagnostic *)

Lemma tableRows_ge opts : forall rest i rows, i <= snd (tableRows opts rest i rows).
Proof.
  induction rest as [|l rest IH]; intros i rows; cbn [tableRows]; [cbn; lia|].
  destruct (negb (truthy (lineOf opts l)) || negb (includes (ch "|") (lineOf opts l)));
    [cbn; lia|].
  specialize (IH (i + 1) (rows ++ [splitTrim (ch "|") (lineOf opts l)])). lia.
Qed.

Lemma skipSeparator_ge opts lines i : i <= skipSeparator opts lines i.
Proof.
  unfold skipSeparator. destruct (Nat.ltb i (List.length lines)); [|lia].
  destruct (_ && _); lia.
Qed.

(** The strict-mode branch is never taken: an iteration leaves the list of
    diagnostics as it found it. *)
Lemma parseStep_errors fuel opts lines st st' :
  parseStep fuel opts lines st = Done st' -> ps_errors st' = ps_errors st.
Proof.
  unfold parseStep.
  destruct (negb (truthy _)); [intros [= <-]; reflexivity|].
  destruct (isTableLine _).
  { destruct (tableRows _ _ _ _). intros [= <-]. reflexivity. }
  destruct (jsmatch cardRe _).
  { destruct (parseCard _ _ _ _ _) as [[node next]|]; cbn; [|discriminate].
    intros [= <-]. reflexivity. }
  destruct (jsmatch gridRe _).
  { destruct (parseContainer _ _ _ _ _ _) as [[node next]|]; cbn; [|discriminate].
    intros [= <-]. reflexivity. }
  assert (Hline : forall l,
    (node <- parseLine l ;;
     Done match node with
          | Some n => {| ps_i := ps_i st + 1; ps_nodes := ps_nodes st ++ [n];
                         ps_errors := ps_errors st |}
          | None => {| ps_i := ps_i st + 1; ps_nodes := ps_nodes st;
                       ps_errors := if strict opts
                                    then ps_errors st ++ [unableToParse (ps_i st) l]
                                    else ps_errors st |}
          end) = Done st' -> ps_errors st' = ps_errors st).
  { intro l. destruct (parseLine_total l) as (n & ->). cbn. intros [= <-]. reflexivity. }
  destruct (jsmatch divRe _); [destruct (includes _ _)|]; try apply Hline.
  destruct (parseContainer _ _ _ _ _ _) as [[node next]|]; cbn; [|discriminate].
  intros [= <-]. reflexivity.
Qed.

Lemma parseStep_total fuel opts lines st :
  2 * (List.length lines - ps_i st - 1) + 2 <= fuel ->
  exists st', parseStep fuel opts lines st = Done st' /\ ps_i st < ps_i st'.
Proof.
  intro Hf. destruct (blocks_total opts lines fuel) as (Hcard & _ & Hcont & _).
  unfold parseStep.
  destruct (negb (truthy _)); [eexists; split; [reflexivity|cbn; lia]|].
  destruct (isTableLine _).
  { pose proof (tableRows_ge opts
                  (skipn (skipSeparator opts lines (ps_i st + 1)) lines)
                  (skipSeparator opts lines (ps_i st + 1)) []) as Hge.
    pose proof (skipSeparator_ge opts lines (ps_i st + 1)) as Hsep.
    destruct (tableRows _ _ _ _) as [rows i']. cbn [snd] in Hge.
    eexists; split; [reflexivity|cbn; lia]. }
  destruct (jsmatch cardRe _) as [m|].
  { destruct (Hcard (ps_i st) (orUndefined (group m 1)) Hf)
      as (tc & cs & next & -> & Hb & _).
    cbn in Hb. cbn [bind]. eexists; split; [reflexivity|cbn; lia]. }
  assert (Hline : forall l, exists st',
    (node <- parseLine l ;;
     Done match node with
          | Some n => {| ps_i := ps_i st + 1; ps_nodes := ps_nodes st ++ [n];
                         ps_errors := ps_errors st |}
          | None => {| ps_i := ps_i st + 1; ps_nodes := ps_nodes st;
                       ps_errors := if strict opts
                                    then ps_errors st ++ [unableToParse (ps_i st) l]
                                    else ps_errors st |}
          end) = Done st' /\ ps_i st < ps_i st').
  { intro l. destruct (parseLine_total l) as (n & ->). cbn.
    eexists; split; [reflexivity|cbn; lia]. }
  assert (Hc : forall ty config, exists st',
    ('(node, nextIndex) <- parseContainer fuel opts lines (ps_i st) ty config ;;
     Done {| ps_i := nextIndex; ps_nodes := ps_nodes st ++ [node];
             ps_errors := ps_errors st |}) = Done st' /\ ps_i st < ps_i st').
  { intros ty config. destruct (Hcont (ps_i st) ty config Hf) as (cs & next & -> & Hb & _).
    cbn in Hb. cbn [bind]. eexists; split; [reflexivity|cbn; lia]. }
  destruct (jsmatch gridRe _); [apply Hc|].
  destruct (jsmatch divRe _); [destruct (includes _ _)|]; auto.
Qed.

Lemma parseLoop_total opts lines : forall fuel st,
  2 * (List.length lines - ps_i st) + 1 <= fuel ->
  exists st', parseLoop fuel opts lines st = Done st'
              /\ ps_errors st' = ps_errors st.
Proof.
  induction fuel as [|fuel IH]; intros st Hf; [lia|].
  cbn [parseLoop]. destruct (Nat.ltb (ps_i st) (List.length lines)) eqn:E;
    [apply Nat.ltb_lt in E | eauto].
  destruct (parseStep_total fuel opts lines st) as (st1 & Hs & Hlt); [lia|].
  rewrite Hs. cbn [bind]. apply parseStep_errors in Hs.
  destruct (IH st1) as (st' & -> & He); [lia|].
  exists st'. split; [reflexivity|congruence].
Qed.

Lemma parse_total_no_errors opts markdown :
  exists ns, parse opts markdown = Done {| nodes := ns; errors := None |}.
Proof.
  unfold parse.
  destruct (parseLoop_total opts (split 10 markdown)
              (2 * List.length (split 10 markdown) + 1)
              {| ps_i := 0; ps_nodes := []; ps_errors := [] |}) as (st' & -> & He);
    [cbn; lia|].
  cbn [bind]. cbn in He. rewrite He. eauto.
Qed.

(** ** A lazy quantifier stops at the first place where the rest matches *)

Lemma lazy_scan (p : N -> bool) (k : cont) (x : mstate) :
  forall X pos rest caps fuel,
    forallb p X = true ->
    List.length X < fuel ->
    (forall X1 c X2, X = X1 ++ c :: X2 ->
        k (MState (pos + List.length X1) (c :: X2 ++ rest) caps) = None) ->
    k (MState (pos + List.length X) rest caps) = Some x ->
    rep_loop (rmatch (Chr p)) false fuel 0 None k (MState pos (X ++ rest) caps) = Some x.
Proof.
  induction X as [|c X IH]; intros pos rest caps fuel Hp Hf Hnone Hk;
    (destruct fuel as [|fuel]; [cbn in Hf; lia|]); cbn [rep_loop orElse].
  - cbn in Hk. rewrite Nat.add_0_r in Hk. cbn [app]. rewrite Hk. reflexivity.
  - cbn in Hp. apply andb_true_iff in Hp. destruct Hp as [Hc Hp].
    pose proof (Hnone [] c X eq_refl) as H0. cbn in H0. rewrite Nat.add_0_r in H0.
    cbn [app]. rewrite H0. cbn [orElse rmatch m_rest m_pos m_caps]. rewrite Hc.
    replace (Nat.eqb (S pos) pos) with false by (symmetry; apply Nat.eqb_neq; lia).
    apply IH; auto.
    + cbn in Hf. lia.
    + intros X1 d X2 E. specialize (Hnone (c :: X1) d X2). cbn in Hnone.
      rewrite Nat.add_succ_r in Hnone. apply Hnone. rewrite E. reflexivity.
    + cbn in Hk. rewrite Nat.add_succ_r in Hk. exact Hk.
Qed.

(** The equations of the matcher, one constructor at a time. *)
Lemma rmatch_seq a b k st : rmatch (Seq a b) k st = rmatch a (rmatch b k) st.
Proof. reflexivity. Qed.

Lemma rmatch_chr p k pos c t caps :
  rmatch (Chr p) k (MState pos (c :: t) caps)
  = if p c then k (MState (S pos) t caps) else None.
Proof. reflexivity. Qed.

Lemma rmatch_chr_nil p k pos caps : rmatch (Chr p) k (MState pos [] caps) = None.
Proof. reflexivity. Qed.

Lemma rmatch_bol k rest caps : rmatch Bol k (MState 0 rest caps) = k (MState 0 rest caps).
Proof. reflexivity. Qed.

Lemma rmatch_group n a k st :
  rmatch (Group n a) k st
  = rmatch a (fun st' => k (set_cap n (m_pos st) (m_pos st') st')) st.
Proof. reflexivity. Qed.

Lemma rmatch_rep g lo hi a k st :
  rmatch (Rep g lo hi a) k st
  = rep_loop (rmatch a) g (S (lo + List.length (m_rest st))) lo hi k st.
Proof. reflexivity. Qed.

Lemma rep_loop_mandatory m g fuel lo hi k st :
  rep_loop m g (S fuel) (S lo) hi k st = m (rep_loop m g fuel lo (pred_hi hi) k) st.
Proof. reflexivity. Qed.

Lemma lazyPlus_scan (p : N -> bool) (k : cont) (x : mstate) c X pos rest caps :
  p c = true -> forallb p X = true ->
  (forall X1 d X2, X = X1 ++ d :: X2 ->
      k (MState (S pos + List.length X1) (d :: X2 ++ rest) caps) = None) ->
  k (MState (S pos + List.length X) rest caps) = Some x ->
  rmatch (LazyPlus (Chr p)) k (MState pos (c :: X ++ rest) caps) = Some x.
Proof.
  intros Hc Hp Hnone Hk. unfold LazyPlus.
  rewrite rmatch_rep, rep_loop_mandatory, rmatch_chr, Hc.
  apply lazy_scan; auto. cbn. rewrite length_app. lia.
Qed.

Lemma emphasisLoop_done fuel remaining position nodes :
  List.length remaining <= position ->
  emphasisLoop fuel remaining position nodes = Done nodes.
Proof.
  intro H. apply Nat.ltb_ge in H. destruct fuel; cbn [emphasisLoop]; rewrite H; reflexivity.
Qed.

Lemma boldItalic_match c X :
  emphasisText (c :: X) = true ->
  jsmatch boldItalicRe (str "_*" ++ (c :: X) ++ str "*_")
  = Some (MatchResult (str "_*" ++ (c :: X) ++ str "*_") 0
            (List.length (str "_*" ++ (c :: X) ++ str "*_"))
            [(1, (2, 2 + List.length (c :: X)))]).
Proof.
  unfold emphasisText. cbn [truthy andb forallb]. intro H.
  apply andb_true_iff in H. destruct H as [Hc HX].
  apply andb_true_iff in Hc. destruct Hc as [Hc1 Hc2].
  assert (Hdot : forallb (fun c => negb (is_line_terminator c)) X = true).
  { rewrite forallb_forall in *. intros y Hy. specialize (HX y Hy).
    apply andb_true_iff in HX. tauto. }
  assert (Hstar : forall y, In y X -> N.eqb 42 y = false).
  { rewrite forallb_forall in HX. intros y Hy. specialize (HX y Hy).
    apply andb_true_iff in HX. destruct HX as [_ HX]. apply negb_true_iff in HX.
    rewrite N.eqb_sym. exact HX. }
  unfold jsmatch. change (str "_*" ++ (c :: X) ++ str "*_") with (95 :: 42 :: c :: X ++ [42; 95])%N.
  cbn [exec_from].
  assert (E : rmatch boldItalicRe Some (MState 0 (95 :: 42 :: c :: X ++ [42; 95])%N [])
              = Some (MState (S (S (S (S (S (List.length X)))))) [] [(1, (2, S (S (S (List.length X)))))])).
  { unfold boldItalicRe, lit. cbn [lit_chars list_ascii_of_string]. unfold sym.
    rewrite rmatch_seq, rmatch_bol, rmatch_seq, rmatch_seq, rmatch_chr.
    change (N.eqb (ch "_") 95) with true. cbv iota. rewrite rmatch_chr.
    change (N.eqb (ch "*") 42) with true. cbv iota.
    rewrite rmatch_seq, rmatch_group. unfold dot.
    apply lazyPlus_scan; auto.
    - intros X1 d X2 E. unfold set_cap. cbn [m_rest m_pos m_caps].
      rewrite rmatch_seq, rmatch_chr.
      change (ch "*") with 42%N. rewrite Hstar; [reflexivity|].
      rewrite E. apply in_or_app. right. left. reflexivity. }
  rewrite E. cbn [m_pos m_caps]. f_equal. f_equal.
  cbn. rewrite length_app. cbn. lia.
Qed.

Lemma emphasisLoop_step fuel remaining position nodes :
  position < List.length remaining ->
  emphasisLoop (S fuel) remaining position nodes
  = emphasisLoop fuel remaining (snd (emphasisStep remaining position))
      (nodes ++ [fst (emphasisStep remaining position)]).
Proof.
  intro H. apply Nat.ltb_lt in H. cbn [emphasisLoop]. rewrite H.
  destruct (emphasisStep remaining position). reflexivity.
Qed.

Lemma parseInlineEmphasis_boldItalic X :
  emphasisText X = true ->
  parseInlineEmphasis (str "_*" ++ X ++ str "*_") = Done [BoldOf [Italic X]].
Proof.
  destruct X as [|c X]; [discriminate|]. intro HX.
  pose proof (boldItalic_match c X HX) as Hm.
  unfold parseInlineEmphasis.
  remember (str "_*" ++ (c :: X) ++ str "*_") as text eqn:Et.
  assert (Hlen : List.length text = S (S (S (List.length X + 2)))).
  { subst text. cbn. rewrite length_app. reflexivity. }
  rewrite Hlen at 1. rewrite emphasisLoop_step by lia.
  unfold emphasisStep. cbn [skipn]. rewrite Hm. cbn [fst snd].
  assert (Hg : group (MatchResult text 0 (List.length text) [(1, (2, 2 + List.length (c :: X)))]) 1
               = c :: X).
  { unfold group, group_opt. cbn [find_cap mr_caps mr_input Nat.eqb].
    subst text. change (str "_*" ++ (c :: X) ++ str "*_") with (str "_*" ++ (c :: X) ++ str "*_").
    apply (slice_app (str "_*") (c :: X) (str "*_")). }
  assert (Hw : List.length (matched (MatchResult text 0 (List.length text)
                                       [(1, (2, 2 + List.length (c :: X)))]))
               = List.length text).
  { unfold matched, slice. cbn [mr_input mr_index mr_end skipn].
    rewrite Nat.sub_0_r, firstn_all. reflexivity. }
  rewrite Hg, Hw. cbn [app Nat.add].
  apply emphasisLoop_done. lia.
Qed.

(** ** Case analysis of [parseLine] *)

Lemma multiButton_inv line n :
  multiButton line = Some n ->
  exists m buttons,
    jsmatch multiButtonRe line = Some m
    /\ matchGlobal buttonsRe line = Some buttons
    /\ 1 < List.length buttons
    /\ n = Container (map buttonNode buttons).
Proof.
  unfold multiButton. destruct (jsmatch multiButtonRe line) as [m|]; [|discriminate].
  destruct (matchGlobal buttonsRe line) as [buttons|]; [|discriminate].
  destruct (Nat.ltb 1 (List.length buttons)) eqn:E; [|discriminate].
  intros [= <-]. apply Nat.ltb_lt in E. eauto 6.
Qed.

Ltac parseLine_cases H :=
  unfold parseLine, bind in H;
  repeat match type of H with
         | context [match ?x with _ => _ end] => destruct x eqn:?
         | context [if ?x then _ else _] => destruct x eqn:?
         end;
  try discriminate H;
  try (injection H as H).

Lemma parseLine_type line n :
  parseLine line = Done (Some n) -> lineType (type n) = true.
Proof.
  intro H. parseLine_cases H; subst n; try reflexivity.
  match goal with
  | E : multiButton _ = Some _ |- _ =>
      apply multiButton_inv in E; destruct E as (? & ? & _ & _ & _ & ->)
  end.
  reflexivity.
Qed.

(** ** Tables *)

Lemma tableRows_rowRun opts : forall rest i rows,
  tableRows opts rest i rows
  = (rows ++ map (splitTrim (ch "|")) (rowRun opts rest),
     i + List.length (rowRun opts rest)).
Proof.
  induction rest as [|l rest IH]; intros i rows; cbn [tableRows rowRun map takeWhile].
  - cbn. rewrite app_nil_r, Nat.add_0_r. reflexivity.
  - replace (negb (truthy (lineOf opts l)) || negb (includes (ch "|") (lineOf opts l)))
      with (negb (isRowLine (lineOf opts l)))
      by (unfold isRowLine; apply negb_andb).
    destruct (isRowLine (lineOf opts l)); cbn [negb].
    + rewrite IH. unfold rowRun. cbn [map List.length]. rewrite <- app_assoc. cbn [app].
      f_equal. lia.
    + cbn. rewrite app_nil_r, Nat.add_0_r. reflexivity.
Qed.

Lemma takeWhile_stop {A : Type} (f : A -> bool) (d : A) : forall l,
  List.length (takeWhile f l) < List.length l ->
  f (nth (List.length (takeWhile f l)) l d) = false.
Proof.
  induction l as [|x l IH]; cbn [takeWhile]; intro H; [cbn in H; lia|].
  destruct (f x) eqn:E; cbn [List.length nth].
  - apply IH. cbn in H. lia.
  - exact E.
Qed.

Lemma takeWhile_length {A : Type} (f : A -> bool) (l : list A) :
  List.length (takeWhile f l) <= List.length l.
Proof. induction l as [|x l IH]; cbn; [lia|]. destruct (f x); cbn; lia. Qed.

Lemma trimStart_incl c s : In c (trimStart s) -> In c s.
Proof.
  induction s as [|x s IH]; cbn; auto. destruct (is_space x); cbn; auto.
Qed.

Lemma trim_incl c s : In c (trim s) -> In c s.
Proof.
  unfold trim, trimEnd. intro H. apply in_rev in H. apply trimStart_incl in H.
  apply in_rev in H. apply trimStart_incl in H. exact H.
Qed.

Lemma startsWith_In c s : startsWith c s = true -> In c s.
Proof.
  destruct s as [|x s]; cbn; [discriminate|]. intro H. apply N.eqb_eq in H. auto.
Qed.

Lemma includes_In c s : includes c s = true <-> In c s.
Proof.
  unfold includes. rewrite existsb_exists. split.
  - intros (x & Hx & E). apply N.eqb_eq in E. subst. exact Hx.
  - intro H. exists c. split; auto. apply N.eqb_refl.
Qed.

(** The first conjunct of the test in [parse] follows from the second. *)
Lemma isTableLine_startsWith line :
  isTableLine line = startsWith (ch "|") (trim line).
Proof.
  unfold isTableLine. destruct (startsWith (ch "|") (trim line)) eqn:E.
  - apply startsWith_In, trim_incl in E. apply includes_In in E. rewrite E. reflexivity.
  - apply andb_false_r.
Qed.

(** ** Expressions that need a given character *)

Lemma requires_sym a : requires (ch a) (sym a).
Proof.
  intros st st' (c & t & E & Hp & _). rewrite E. left.
  apply N.eqb_eq in Hp. auto.
Qed.

Lemma requires_seq_l c a b : requires c a -> requires c (Seq a b).
Proof. intros Ha st st' (mid & H & _). eauto. Qed.

Lemma requires_seq_r c a b : requires c b -> requires c (Seq a b).
Proof.
  intros Hb st st' (mid & H1 & H2). apply Hb in H2.
  apply den_suffix in H1. destruct H1 as (w & -> & _). apply in_or_app. auto.
Qed.

Lemma requires_alt c a b : requires c a -> requires c b -> requires c (Alt a b).
Proof. intros Ha Hb st st' [H|H]; eauto. Qed.

Lemma requires_group c n a : requires c a -> requires c (Group n a).
Proof. intros Ha st st' (mid & H & _). eauto. Qed.

Ltac requires_tac :=
  first [ apply requires_sym
        | apply requires_group; requires_tac
        | apply requires_alt; requires_tac
        | apply requires_seq_l; requires_tac
        | apply requires_seq_r; requires_tac ].

Ltac solve_requires :=
  unfold lit; cbn [lit_chars list_ascii_of_string]; requires_tac.

Lemma skipn_incl (c : N) : forall k s, In c (skipn k s) -> In c s.
Proof.
  induction k as [|k IH]; intros s H; [exact H|].
  destruct s as [|x s]; [exact H|]. cbn in H. right. auto.
Qed.

Lemma jsmatch_requires c r s m : requires c r -> jsmatch r s = Some m -> In c s.
Proof.
  intros Hr H. apply jsmatch_sound in H. destruct H as (k & st' & _ & Hd & _).
  apply Hr in Hd. cbn in Hd. eapply skipn_incl; eauto.
Qed.

Lemma jsmatch_requires_none c r s :
  requires c r -> includes c s = false -> jsmatch r s = None.
Proof.
  intros Hr Hs. destruct (jsmatch r s) eqn:E; [|reflexivity].
  apply jsmatch_requires with (c := c) in E; [|exact Hr].
  apply includes_In in E. congruence.
Qed.










(** ** Anchored expressions *)



(** ** Lines that begin with seven number signs *)








(** ** Taking a match apart *)

Ltac den_peel H :=
  lazymatch type of H with
  | den (Seq _ _) _ _ =>
      let mid := fresh "mid" in
      let H1 := fresh "Hd" in
      let H2 := fresh "Hd" in
      apply den_seq_inv in H; destruct H as (mid & H1 & H2);
      den_peel H1; den_peel H2
  | den (Group _ _) _ _ =>
      let mid := fresh "mid" in
      let H1 := fresh "Hd" in
      let E := fresh "E" in
      destruct H as (mid & H1 & E); den_peel H1; subst;
      unfold set_cap in *; cbn [m_rest m_pos m_caps] in *
  | den (Rep _ _ _ (Chr _)) _ _ =>
      let w := fresh "w" in
      let rest := fresh "rest" in
      let Hlo := fresh "Hlo" in
      let Hhi := fresh "Hhi" in
      let Hp := fresh "Hp" in
      let E := fresh "E" in
      apply den_rep_chr in H;
      destruct H as (w & rest & Hlo & Hhi & Hp & E & ->);
      cbn [m_rest m_pos m_caps] in *; subst
  | den (Chr _) _ _ =>
      let c := fresh "c" in
      let t := fresh "t" in
      let Hp := fresh "Hp" in
      let E := fresh "E" in
      destruct H as (c & t & E & Hp & ->);
      cbn [m_rest m_pos m_caps] in *; subst
  | den Eol _ _ =>
      let E := fresh "E" in
      destruct H as (E & ->); cbn [m_rest m_pos m_caps] in *; subst
  | _ => idtac
  end.

Ltac den_open H :=
  unfold lit in H; cbn [lit_chars list_ascii_of_string] in H;
  unfold LazyPlus, Plus, Star, Opt, ws, dot, sym, noneOf in H;
  den_peel H.

Lemma slice_at (pre w post : jsstring) a b :
  a = List.length pre -> b = a + List.length w ->
  slice (pre ++ w ++ post) a b = w.
Proof. intros -> ->. apply slice_app. Qed.

(** A line the radio group rule accepts: a label, white space, the marker,
    white space, and a bracketed list that is not empty as a text. *)
Lemma radio_shape line m :
  jsmatch radioGroupRe line = Some m ->
  exists w1 w2,
    line = group m 1 ++ w1 ++ str "__()" ++ w2 ++ str "[" ++ group m 2 ++ str "]"
    /\ group m 1 <> [] /\ group m 2 <> []
    /\ forallb is_space w1 = true /\ forallb is_space w2 = true
    /\ forallb (fun c => negb (is_line_terminator c)) (group m 2) = true.
Proof.
  intro H. apply jsmatch_anchored in H.
  destruct H as (st' & Hd & ->).
  unfold radioGroupRe in Hd. den_open Hd.
  repeat match goal with
         | Hc : N.eqb (ch _) _ = true |- _ => apply N.eqb_eq in Hc; cbn in Hc; subst
         end.
  assert (G1 : group (MatchResult
                        (w ++ w0 ++ 95 :: 95 :: 40 :: 41 :: w1 ++ 91 :: w2 ++ [93])%N
                        0
                        (S (S (S (S (S (S (0 + List.length w + List.length w0))))
                               + List.length w1) + List.length w2))
                        [(2, (S (S (S (S (S (0 + List.length w + List.length w0))))
                                 + List.length w1),
                              S (S (S (S (S (0 + List.length w + List.length w0))))
                                 + List.length w1) + List.length w2));
                         (1, (0, 0 + List.length w))]) 1 = w).
  { unfold group, group_opt. cbn [find_cap mr_caps mr_input Nat.eqb].
    apply (slice_at [] w); cbn; lia. }
  assert (G2 : group (MatchResult
                        (w ++ w0 ++ 95 :: 95 :: 40 :: 41 :: w1 ++ 91 :: w2 ++ [93])%N
                        0
                        (S (S (S (S (S (S (0 + List.length w + List.length w0))))
                               + List.length w1) + List.length w2))
                        [(2, (S (S (S (S (S (0 + List.length w + List.length w0))))
                                 + List.length w1),
                              S (S (S (S (S (0 + List.length w + List.length w0))))
                                 + List.length w1) + List.length w2));
                         (1, (0, 0 + List.length w))]) 2 = w2).
  { unfold group, group_opt. cbn [find_cap mr_caps mr_input Nat.eqb].
    replace (w ++ w0 ++ 95 :: 95 :: 40 :: 41 :: w1 ++ 91 :: w2 ++ [93])%N
      with ((w ++ w0 ++ [95; 95; 40; 41] ++ w1 ++ [91]) ++ w2 ++ [93])%N
      by (repeat rewrite <- app_assoc; reflexivity).
    apply slice_at; [|reflexivity].
    repeat rewrite length_app. cbn. lia. }
  rewrite G1, G2. exists w0, w1.
  repeat split; auto.
  - intros ->. cbn in *. lia.
  - intros ->. cbn in *. lia.
Qed.

(** ** Option lists *)

Lemma trimStart_head c t s : trimStart s = c :: t -> is_space c = false.
Proof.
  induction s as [|x s IH]; cbn; [discriminate|].
  destruct (is_space x) eqn:E; auto. intros [= -> _]. exact E.
Qed.

Lemma trimStart_nil s : trimStart s = [] <-> forallb is_space s = true.
Proof.
  induction s as [|x s IH]; cbn; [tauto|].
  destruct (is_space x); cbn; [exact IH|]. split; discriminate.
Qed.

Lemma forallb_rev (f : N -> bool) s : forallb f (rev s) = forallb f s.
Proof.
  induction s as [|x s IH]; cbn; [reflexivity|].
  rewrite forallb_app, IH. cbn. rewrite andb_true_r. apply andb_comm.
Qed.

Lemma trim_nil s : trim s = [] <-> forallb is_space s = true.
Proof.
  unfold trim, trimEnd. split.
  - intro H. apply (f_equal (@rev N)) in H. rewrite rev_involutive in H. cbn in H.
    apply trimStart_nil in H. rewrite forallb_rev in H.
    destruct (trimStart s) as [|c t] eqn:E; [apply trimStart_nil; exact E|].
    apply trimStart_head in E. cbn in H. rewrite E in H. discriminate.
  - intro H. apply trimStart_nil in H. rewrite H. reflexivity.
Qed.

Lemma split_cons sep s : exists h r, split sep s = h :: r.
Proof.
  induction s as [|c s (h & r & E)]; cbn; [eauto|].
  destruct (N.eqb c sep); [eauto|]. rewrite E. eauto.
Qed.

(** The option list is empty exactly when the text between the brackets
    holds separators and white space only. *)
Lemma splitTrim_nil sep s :
  splitTrim sep s = [] <-> forallb (fun c => N.eqb c sep || is_space c) s = true.
Proof.
  unfold splitTrim, nonEmpty. induction s as [|c s IH]; cbn [split forallb].
  - cbn. tauto.
  - destruct (N.eqb c sep) eqn:E; cbn [orb andb].
    + cbn [map filter]. replace (truthy (trim [])) with false by reflexivity. exact IH.
    + destruct (split_cons sep s) as (h & r & Es). rewrite Es in *. cbn [map filter] in *.
      assert (Hh : truthy (trim h) = false <-> forallb is_space h = true).
      { rewrite <- trim_nil. destruct (trim h); cbn; split; congruence. }
      assert (Hch : truthy (trim (c :: h)) = false
                    <-> is_space c = true /\ forallb is_space h = true).
      { rewrite <- andb_true_iff. change (is_space c && forallb is_space h)
          with (forallb is_space (c :: h)).
        rewrite <- trim_nil. destruct (trim (c :: h)); cbn; split; congruence. }
      destruct (truthy (trim (c :: h))) eqn:Ec.
      * split; [discriminate|]. intro H. apply andb_true_iff in H.
        destruct H as [Hc Hs]. destruct IH as [_ IH']. specialize (IH' Hs).
        destruct (truthy (trim h)) eqn:Eh; [discriminate|].
        destruct Hh as [Hh' _]. destruct Hch as [_ Hch'].
        specialize (Hch' (conj Hc (Hh' eq_refl))). discriminate.
      * destruct Hch as [Hch' _]. destruct (Hch' eq_refl) as [Hc Hhs].
        rewrite Hc. cbn [andb]. destruct Hh as [_ Hh']. rewrite (Hh' Hhs) in IH.
        exact IH.
Qed.

Lemma splitTrim_nonempty_entries sep s : Forall (fun o => o <> []) (splitTrim sep s).
Proof.
  unfold splitTrim, nonEmpty. apply Forall_forall. intros o Ho.
  apply filter_In in Ho. destruct Ho as [_ Ho]. intros ->. discriminate.
Qed.

(** ** Fields and buttons on one line *)









(** ** The single-field rules exclude one another by the last character *)















(** ** What the dispatch of [parse] pushes *)

Lemma parseCard_node fuel opts lines startIndex title node next :
  parseCard fuel opts lines startIndex title = Done (node, next) -> type node = card.
Proof.
  destruct fuel as [|fuel]; cbn [parseCard]; [discriminate|].
  destruct (cardLoop _ _ _ _ _ _) as [[cs i]|]; cbn [bind]; [|discriminate].
  destruct (titleChildrenOf title); cbn [bind]; [|discriminate].
  intros [= <- _]. reflexivity.
Qed.

Lemma parseContainer_node fuel opts lines startIndex ty config node next :
  parseContainer fuel opts lines startIndex ty config = Done (node, next) ->
  type node = grid \/ type node = div.
Proof.
  destruct fuel as [|fuel]; cbn [parseContainer]; [discriminate|].
  destruct (containerLoop _ _ _ _ _ _) as [[cs i]|]; cbn [bind]; [|discriminate].
  intros [= <- _]. destruct ty; cbn; auto.
Qed.

(** The step of [parse] on a line that is not blank and not the start of
    a table pushes no table. *)
Lemma parseStep_no_table fuel opts lines st st' n :
  truthy (lineAt opts lines (ps_i st)) = true ->
  isTableLine (lineAt opts lines (ps_i st)) = false ->
  parseStep fuel opts lines st = Done st' ->
  ps_nodes st' = ps_nodes st ++ [n] ->
  type n <> table.
Proof.
  intros Ht Hn. unfold parseStep. rewrite Ht, Hn. cbn [negb].
  assert (Hcard : forall t,
    ('(node, nextIndex) <- parseCard fuel opts lines (ps_i st) t ;;
     Done {| ps_i := nextIndex; ps_nodes := ps_nodes st ++ [node];
             ps_errors := ps_errors st |}) = Done st' ->
    ps_nodes st' = ps_nodes st ++ [n] -> type n <> table).
  { intro t. destruct (parseCard _ _ _ _ _) as [[node next]|] eqn:E; cbn [bind]; [|discriminate].
    intros [= <-]. cbn [ps_nodes]. intro H. apply app_inj_tail in H. destruct H as [_ ->].
    apply parseCard_node in E. congruence. }
  assert (Hcont : forall ty c,
    ('(node, nextIndex) <- parseContainer fuel opts lines (ps_i st) ty c ;;
     Done {| ps_i := nextIndex; ps_nodes := ps_nodes st ++ [node];
             ps_errors := ps_errors st |}) = Done st' ->
    ps_nodes st' = ps_nodes st ++ [n] -> type n <> table).
  { intros ty c. destruct (parseContainer _ _ _ _ _ _) as [[node next]|] eqn:E;
      cbn [bind]; [|discriminate].
    intros [= <-]. cbn [ps_nodes]. intro H. apply app_inj_tail in H. destruct H as [_ ->].
    apply parseContainer_node in E. destruct E; congruence. }
  assert (Hline :
    (node <- parseLine (lineAt opts lines (ps_i st)) ;;
     Done match node with
          | Some n => {| ps_i := ps_i st + 1; ps_nodes := ps_nodes st ++ [n];
                         ps_errors := ps_errors st |}
          | None => {| ps_i := ps_i st + 1; ps_nodes := ps_nodes st;
                       ps_errors := if strict opts
                                    then ps_errors st
                                         ++ [unableToParse (ps_i st) (lineAt opts lines (ps_i st))]
                                    else ps_errors st |}
          end) = Done st' ->
    ps_nodes st' = ps_nodes st ++ [n] -> type n <> table).
  { destruct (parseLine_total (lineAt opts lines (ps_i st))) as (x & E). rewrite E.
    cbn [bind]. intros [= <-]. cbn [ps_nodes]. intro H. apply app_inj_tail in H.
    destruct H as [_ ->]. apply parseLine_type in E. intro Hx. rewrite Hx in E. discriminate. }
  destruct (jsmatch cardRe _); [apply Hcard|].
  destruct (jsmatch gridRe _); [apply Hcont|].
  destruct (jsmatch divRe _); [destruct (includes _ _)|];
    first [exact Hline | apply Hcont].
Qed.

(** The step of [parse] on the first line of a table. *)
Lemma parseStep_table fuel opts lines st :
  truthy (lineAt opts lines (ps_i st)) = true ->
  isTableLine (lineAt opts lines (ps_i st)) = true ->
  parseStep fuel opts lines st
  = Done {| ps_i := skipSeparator opts lines (ps_i st + 1)
                    + List.length (rowRun opts (skipn (skipSeparator opts lines (ps_i st + 1)) lines));
            ps_nodes := ps_nodes st
                        ++ [Table (splitTrim (ch "|") (lineAt opts lines (ps_i st)))
                              (map (splitTrim (ch "|"))
                                 (rowRun opts (skipn (skipSeparator opts lines (ps_i st + 1)) lines)))];
            ps_errors := ps_errors st |}.
Proof.
  intros Ht Hn. unfold parseStep. rewrite Ht, Hn. cbn [negb].
  rewrite tableRows_rowRun. reflexivity.
Qed.

(** The rows stop at the first line that is not a row; it is not
    consumed. *)
Lemma rowRun_stop opts lines j :
  j + List.length (rowRun opts (skipn j lines)) < List.length lines ->
  isRowLine (lineAt opts lines (j + List.length (rowRun opts (skipn j lines)))) = false.
Proof.
  intro H. unfold lineAt, rowRun in *.
  rewrite <- nth_skipn.
  rewrite <- map_nth with (f := lineOf opts).
  apply takeWhile_stop. rewrite length_map, length_skipn. lia.
Qed.

(** ** Blocks without a closing line *)


(** ** Navigation and workflows *)

Lemma fieldNode_plain m : plainButton (fieldNode m).
Proof.
  unfold fieldNode.
  repeat match goal with
         | |- context [if ?x then _ else _] => destruct x
         | |- context [match ?x with _ => _ end] => destruct x
         end; exact I.
Qed.

Lemma buttonNode_plain btn : plainButton (buttonNode btn).
Proof. unfold buttonNode. destruct (jsmatch innerRe btn); reflexivity. Qed.

(** No rule of the classifier sets [navigateTo]. *)
Lemma parseLine_noNavigation line n :
  parseLine line = Done (Some n) -> noNavigation n.
Proof.
  intro H. parseLine_cases H; subst n; try exact I; try reflexivity.
  - apply Forall_forall. intros n Hin. apply in_map_iff in Hin.
    destruct Hin as (m & <- & _). apply fieldNode_plain.
  - match goal with
    | E : multiButton _ = Some _ |- _ =>
        apply multiButton_inv in E; destruct E as (? & ? & _ & _ & _ & ->)
    end.
    apply Forall_forall. intros n Hin. apply in_map_iff in Hin.
    destruct Hin as (b & <- & _). apply buttonNode_plain.
Qed.

Lemma parseStep_topType fuel opts lines st st' :
  parseStep fuel opts lines st = Done st' ->
  Forall (fun n => topType (type n) = true) (ps_nodes st) ->
  Forall (fun n => topType (type n) = true) (ps_nodes st').
Proof.
  intros H Hall. unfold parseStep in H.
  assert (Hpush : forall n, topType (type n) = true ->
            Forall (fun n => topType (type n) = true) (ps_nodes st ++ [n])).
  { intros n Hn. apply Forall_app. split; [exact Hall|]. constructor; auto. }
  destruct (negb (truthy _)); [injection H as <-; exact Hall|].
  destruct (isTableLine _).
  { destruct (tableRows _ _ _ _). injection H as <-. apply Hpush. reflexivity. }
  destruct (jsmatch cardRe _).
  { destruct (parseCard _ _ _ _ _) as [[node next]|] eqn:E; cbn [bind] in H; [|discriminate].
    injection H as <-. apply Hpush. apply parseCard_node in E. rewrite E. reflexivity. }
  assert (Hcont : forall ty c,
    ('(node, nextIndex) <- parseContainer fuel opts lines (ps_i st) ty c ;;
     Done {| ps_i := nextIndex; ps_nodes := ps_nodes st ++ [node];
             ps_errors := ps_errors st |}) = Done st' ->
    Forall (fun n => topType (type n) = true) (ps_nodes st')).
  { intros ty c. destruct (parseContainer _ _ _ _ _ _) as [[node next]|] eqn:E;
      cbn [bind]; [|discriminate].
    intros [= <-]. apply Hpush. apply parseContainer_node in E.
    destruct E as [E|E]; rewrite E; reflexivity. }
  assert (Hline : forall l,
    (node <- parseLine l ;;
     Done match node with
          | Some n => {| ps_i := ps_i st + 1; ps_nodes := ps_nodes st ++ [n];
                         ps_errors := ps_errors st |}
          | None => {| ps_i := ps_i st + 1; ps_nodes := ps_nodes st;
                       ps_errors := if strict opts
                                    then ps_errors st ++ [unableToParse (ps_i st) l]
                                    else ps_errors st |}
          end) = Done st' ->
    Forall (fun n => topType (type n) = true) (ps_nodes st')).
  { intro l. destruct (parseLine_total l) as (x & E). rewrite E. cbn [bind].
    intros [= <-]. apply Hpush. apply parseLine_type in E.
    destruct (type x); try discriminate E; reflexivity. }
  destruct (jsmatch gridRe _); [apply Hcont in H; exact H|].
  destruct (jsmatch divRe _); [destruct (includes _ _)|];
    first [apply Hline in H; exact H | apply Hcont in H; exact H].
Qed.

Lemma parseLoop_topType opts lines : forall fuel st st',
  parseLoop fuel opts lines st = Done st' ->
  Forall (fun n => topType (type n) = true) (ps_nodes st) ->
  Forall (fun n => topType (type n) = true) (ps_nodes st').
Proof.
  induction fuel as [|fuel IH]; intros st st' H Hall; cbn [parseLoop] in H;
    destruct (Nat.ltb (ps_i st) (List.length lines));
    try discriminate; try (injection H as <-; exact Hall).
  destruct (parseStep fuel opts lines st) as [st1|] eqn:E; cbn [bind] in H; [|discriminate].
  eapply IH; [exact H|]. eapply parseStep_topType; eauto.
Qed.

(** No node at the top level of a result is a workflow or a screen. *)
Lemma parse_topType opts markdown result :
  parse opts markdown = Done result ->
  Forall (fun n => topType (type n) = true) (nodes result).
Proof.
  unfold parse.
  destruct (parseLoop _ _ _ _) as [st|] eqn:E; cbn [bind]; [|discriminate].
  intros [= <-]. cbn [nodes]. eapply parseLoop_topType; [exact E|]. constructor.
Qed.



(** ** The claims *)


(** C2. What the parser returns on the two navigation buttons of the
    claim: the arrow and the target stay in the label, the variant is
    outline in both cases and [navigateTo] is not set; no rule of the
    classifier sets it, on any line.  The claim expects the label [Next],
    the variant default and the target [step2], and the label [Back] with
    the target [step1]. *)
Theorem navigation_buttons_as_parsed :
  parse defaultOptions (str "[(Next) -> step2]")
  = Done {| nodes := [Button (str "(Next) -> step2") outline None None];
            errors := None |}
  /\ parse defaultOptions (str "[Back -> step1]")
     = Done {| nodes := [Button (str "Back -> step1") outline None None];
               errors := None |}
  /\ (forall line n, parseLine line = Done (Some n) -> noNavigation n).
Proof.
  split; [vm_compute; reflexivity|]. split; [vm_compute; reflexivity|].
  exact parseLine_noNavigation.
Qed.

Lemma navigation_buttons_witness :
  noNavigation (Container [Button (str "Save") default None None;
                           Button (str "Cancel") outline None None]).
Proof.
  exact (proj2 (proj2 navigation_buttons_as_parsed) (str "[(Save)][Cancel]") _ eq_refl).
Defined.

(** C3. What the parser returns on a workflow block with three screens:
    the opener is taken for the opener of a plain block, and the result is
    a [div] of class [workflow] that holds three [div] nodes; there is no
    [workflow] node and no [initialScreen]; on no input does the result
    hold a workflow or a screen at its top level.  The claim expects a
    workflow node whose initial screen is [a]. *)
Theorem workflow_as_parsed :
  parse defaultOptions workflowABC
  = Done {| nodes := [Div (Some (str "workflow"))
                        [Div (Some (str "screen a")) [];
                         Div (Some (str "screen b")) [];
                         Div (Some (str "screen c")) []]];
            errors := None |}
  /\ (forall opts markdown result,
        parse opts markdown = Done result ->
        Forall (fun n => type n <> workflow /\ type n <> screen) (nodes result)).
Proof.
  split; [vm_compute; reflexivity|].
  intros opts markdown result H. apply parse_topType in H.
  eapply Forall_impl; [|exact H]. cbn beta. intros n Hn.
  split; intro E; rewrite E in Hn; discriminate.
Qed.

Lemma workflow_witness :
  Forall (fun n => type n <> workflow /\ type n <> screen)
    [Div (Some (str "workflow")) [Div (Some (str "screen a")) []]].
Proof.
  exact (proj2 workflow_as_parsed defaultOptions
           (str "[workflow" ++ lf ++ str "[screen a" ++ lf ++ str "]" ++ lf ++ str "]")
           _ eq_refl).
Defined.

(** C4, as stated, fails: a line that begins with a pipe and has no other
    pipe starts a table. *)
Lemma table_single_pipe_counterexample :
  tableStartClaimed (str "|abc") = false
  /\ isTableLine (str "|abc") = true
  /\ parse defaultOptions (str "|abc")
     = Done {| nodes := [Table [str "abc"] []]; errors := None |}.
Proof. repeat split; vm_compute; reflexivity. Qed.

(** C4, amended.  On a line that is not blank, the dispatch of [parse]
    takes the line for the start of a table exactly when the trimmed line
    begins with a pipe.  It then pushes one table: the headers are the
    trimmed segments of the line between pipes that are not empty; after an
    optional separator line (one that contains a dash and a pipe), the rows
    are the consecutive lines that are not blank and contain a pipe; the
    first line that fails this test is not consumed.  On any other line the
    dispatch pushes no table. *)
Theorem table_dispatch fuel opts lines st :
  truthy (lineAt opts lines (ps_i st)) = true ->
  let line := lineAt opts lines (ps_i st) in
  let j := skipSeparator opts lines (ps_i st + 1) in
  let run := rowRun opts (skipn j lines) in
  (isTableLine line = true <-> startsWith (ch "|") (trim line) = true)
  /\ (isTableLine line = true ->
      parseStep fuel opts lines st
      = Done {| ps_i := j + List.length run;
                ps_nodes := ps_nodes st
                            ++ [Table (splitTrim (ch "|") line)
                                  (map (splitTrim (ch "|")) run)];
                ps_errors := ps_errors st |}
      /\ (j + List.length run < List.length lines ->
          isRowLine (lineAt opts lines (j + List.length run)) = false))
  /\ (isTableLine line = false ->
      forall st' n, parseStep fuel opts lines st = Done st' ->
                    ps_nodes st' = ps_nodes st ++ [n] -> type n <> table).
Proof.
  intros Ht line j run. split; [|split].
  - rewrite isTableLine_startsWith. tauto.
  - intro Hn. split.
    + apply parseStep_table; assumption.
    + apply rowRun_stop.
  - intros Hn st' n. apply parseStep_no_table; assumption.
Qed.

Lemma table_dispatch_witness :
  parseStep 0 defaultOptions
    [str "| a | b |"; str "|---|---|"; str "| 1 | 2 |"; str "x"]
    {| ps_i := 0; ps_nodes := []; ps_errors := [] |}
  = Done {| ps_i := 3;
            ps_nodes := [Table [str "a"; str "b"] [[str "1"; str "2"]]];
            ps_errors := [] |}.
Proof.
  exact (proj1 (proj1 (proj2 (table_dispatch 0 defaultOptions
                               [str "| a | b |"; str "|---|---|"; str "| 1 | 2 |"; str "x"]
                               {| ps_i := 0; ps_nodes := []; ps_errors := [] |}
                               eq_refl)) eq_refl)).
Defined.




(** C6. Bold italic: an emphasised text [X] (not empty, on one line,
    without an asterisk) between the delimiters gives one bold node whose
    only child is an italic node of content [X].  The sentence of the
    claim gives its five nodes, in the order of the source. *)
Theorem emphasis_tokens :
  (forall X, emphasisText X = true ->
     parseInlineEmphasis (str "_*" ++ X ++ str "*_") = Done [BoldOf [Italic X]])
  /\ parseInlineEmphasis (str "Some _italic_ and *bold* text")
     = Done [Text (str "Some "); Italic (str "italic"); Text (str " and ");
             Bold (str "bold"); Text (str " text")].
Proof.
  split; [exact parseInlineEmphasis_boldItalic|]. vm_compute. reflexivity.
Qed.

Lemma emphasis_tokens_witness :
  parseInlineEmphasis (str "_*X*_") = Done [BoldOf [Italic (str "X")]].
Proof. exact (proj1 emphasis_tokens (str "X") eq_refl). Defined.



(** C8. The classifier returns a node for every line; a step of [parse]
    therefore never takes the strict-mode branch and leaves the
    diagnostics as it found them; and for every input and every
    configuration, strict or not, [parse] returns no list of errors. *)
Theorem classifier_total_no_diagnostics :
  (forall line, exists node, parseLine line = Done (Some node))
  /\ (forall fuel opts lines st st',
        parseStep fuel opts lines st = Done st' -> ps_errors st' = ps_errors st)
  /\ (forall opts markdown, exists ns,
        parse opts markdown = Done {| nodes := ns; errors := None |}).
Proof.
  split; [exact parseLine_total|]. split; [exact parseStep_errors|].
  exact parse_total_no_errors.
Qed.

Lemma classifier_total_witness :
  ps_errors {| ps_i := 1; ps_nodes := [TextOf [Text (str "~~~")]]; ps_errors := [] |} = [].
Proof.
  exact (proj1 (proj2 classifier_total_no_diagnostics) 0
           {| strict := true; preserveWhitespace := false |} [str "~~~"]
           {| ps_i := 0; ps_nodes := []; ps_errors := [] |}
           {| ps_i := 1; ps_nodes := [TextOf [Text (str "~~~")]]; ps_errors := [] |}
           eq_refl).
Defined.

(** C9, as stated, fails: a bracketed list that holds a comma only gives a
    radio group without options. *)
Lemma radiogroup_empty_options_counterexample :
  parseLine (str "A __() [,]") = Done (Some (Radiogroup (str "A") [])).
Proof. vm_compute. reflexivity. Qed.

(** C9, amended.  A radio group node comes from a line made of the label,
    white space, the marker, white space and a bracketed text that is
    mandatory and not empty; its options are the entries of that text
    between commas, trimmed, the empty ones left out, so that no option is
    empty; the list of options is empty exactly when the bracketed text
    holds commas and white space only. *)
Theorem radiogroup_options line label options :
  parseLine line = Done (Some (Radiogroup label options)) ->
  exists w1 w2 inner,
    line = label ++ w1 ++ str "__()" ++ w2 ++ str "[" ++ inner ++ str "]"
    /\ inner <> []
    /\ options = splitTrim (ch ",") inner
    /\ Forall (fun o => o <> []) options
    /\ (options = []
        <-> forallb (fun c => N.eqb c (ch ",") || is_space c) inner = true).
Proof.
  intro H. parseLine_cases H; try discriminate.
  - match goal with
    | E : jsmatch radioGroupRe _ = Some ?m |- _ =>
        destruct (radio_shape _ _ E) as (w1 & w2 & El & _ & Hi & _)
    end.
    subst label options. exists w1, w2. eexists. split; [exact El|].
    split; [exact Hi|]. split; [reflexivity|].
    split; [apply splitTrim_nonempty_entries|apply splitTrim_nil].
  - match goal with
    | E : multiButton _ = Some _ |- _ =>
        apply multiButton_inv in E; destruct E as (? & ? & _ & _ & _ & E)
    end.
    congruence.
Qed.

Lemma radiogroup_options_witness :
  exists w1 w2 inner,
    str "Account Type __() [Personal, Business]"
    = str "Account Type" ++ w1 ++ str "__()" ++ w2 ++ str "[" ++ inner ++ str "]"
    /\ inner <> []
    /\ [str "Personal"; str "Business"] = splitTrim (ch ",") inner
    /\ Forall (fun o => o <> []) [str "Personal"; str "Business"]
    /\ ([str "Personal"; str "Business"] = []
        <-> forallb (fun c => N.eqb c (ch ",") || is_space c) inner = true).
Proof.
  exact (radiogroup_options (str "Account Type __() [Personal, Business]")
           (str "Account Type") [str "Personal"; str "Business"] eq_refl).
Defined.




(** ** Further properties of the parser *)

(** *** The tokenizer neither loses nor invents text *)

Ltac eq_chars :=
  repeat match goal with
         | Hc : N.eqb (ch _) _ = true |- _ => apply N.eqb_eq in Hc; cbn in Hc; subst
         end.

Lemma slice_prefix_of (i p : jsstring) n :
  (exists post, i = p ++ post) -> n = List.length p -> slice i 0 n = p.
Proof. intros (post & ->) ->. apply slice_0. Qed.

Lemma emphasisContent_intro w :
  1 <= List.length w -> forallb (fun c => negb (is_line_terminator c)) w = true ->
  emphasisContent w = true.
Proof.
  intros Hl Hp. unfold emphasisContent. rewrite Hp.
  destruct w; [cbn in Hl; lia|reflexivity].
Qed.

Lemma boldItalic_shape s m :
  jsmatch boldItalicRe s = Some m ->
  exists post,
    s = str "_*" ++ group m 1 ++ str "*_" ++ post
    /\ matched m = str "_*" ++ group m 1 ++ str "*_"
    /\ emphasisContent (group m 1) = true.
Proof.
  intro H. apply jsmatch_anchored in H. destruct H as (st' & Hd & ->).
  unfold boldItalicRe in Hd. den_open Hd. eq_chars.
  replace (group _ 1) with w.
  2:{ unfold group, group_opt. cbn [find_cap mr_caps mr_input Nat.eqb]. symmetry.
      apply (slice_at [95; 42]%N w); reflexivity. }
  eexists. split; [reflexivity|]. split; [|apply emphasisContent_intro; auto].
  unfold matched. cbn [mr_input mr_index mr_end].
  apply slice_prefix_of.
  - eexists. cbn. rewrite <- app_assoc. reflexivity.
  - cbn. rewrite length_app. cbn. lia.
Qed.

Lemma bold_shape s m :
  jsmatch boldRe s = Some m ->
  exists post,
    s = str "*" ++ group m 1 ++ str "*" ++ post
    /\ matched m = str "*" ++ group m 1 ++ str "*"
    /\ emphasisContent (group m 1) = true.
Proof.
  intro H. apply jsmatch_anchored in H. destruct H as (st' & Hd & ->).
  unfold boldRe in Hd. den_open Hd. eq_chars.
  replace (group _ 1) with w.
  2:{ unfold group, group_opt. cbn [find_cap mr_caps mr_input Nat.eqb]. symmetry.
      apply (slice_at [42]%N w); reflexivity. }
  eexists. split; [reflexivity|]. split; [|apply emphasisContent_intro; auto].
  unfold matched. cbn [mr_input mr_index mr_end].
  apply slice_prefix_of.
  - eexists. cbn. rewrite <- app_assoc. reflexivity.
  - cbn. rewrite length_app. cbn. lia.
Qed.

Lemma italic_shape s m :
  jsmatch italicRe s = Some m ->
  exists post,
    s = str "_" ++ group m 1 ++ str "_" ++ post
    /\ matched m = str "_" ++ group m 1 ++ str "_"
    /\ emphasisContent (group m 1) = true.
Proof.
  intro H. apply jsmatch_anchored in H. destruct H as (st' & Hd & ->).
  unfold italicRe in Hd. den_open Hd. eq_chars.
  replace (group _ 1) with w.
  2:{ unfold group, group_opt. cbn [find_cap mr_caps mr_input Nat.eqb]. symmetry.
      apply (slice_at [95]%N w); reflexivity. }
  eexists. split; [reflexivity|]. split; [|apply emphasisContent_intro; auto].
  unfold matched. cbn [mr_input mr_index mr_end].
  apply slice_prefix_of.
  - eexists. cbn. rewrite <- app_assoc. reflexivity.
  - cbn. rewrite length_app. cbn. lia.
Qed.

Lemma indexOf_spec c : forall s,
  match indexOf c s with
  | Some i => i < List.length s /\ nth i s 0%N = c /\ ~ In c (firstn i s)
  | None => ~ In c s
  end.
Proof.
  induction s as [|x s IH]; cbn [indexOf]; [auto|].
  destruct (N.eqb x c) eqn:E.
  - apply N.eqb_eq in E. cbn. repeat split; auto; lia.
  - apply N.eqb_neq in E. destruct (indexOf c s) as [i|].
    + destruct IH as (H1 & H2 & H3). cbn. repeat split; auto; try lia.
      intros [H|H]; auto.
    + cbn. intros [H|H]; auto.
Qed.

Lemma slice_skipn (r : jsstring) p n :
  slice r p (p + n) = firstn n (skipn p r).
Proof. unfold slice. f_equal. lia. Qed.

Lemma firstn_slice (r : jsstring) p q :
  p <= q -> firstn p r ++ slice r p q = firstn q r.
Proof.
  unfold slice. revert r q. induction p as [|p IH]; intros r q H.
  - cbn. rewrite Nat.sub_0_r. reflexivity.
  - destruct q as [|q]; [lia|]. destruct r as [|x r]; cbn.
    + rewrite firstn_nil. reflexivity.
    + f_equal. apply IH. lia.
Qed.

Lemma noMarker_intro s :
  ~ In (ch "*") s -> ~ In (ch "_") s ->
  forallb (fun x => negb (isMarker x)) s = true.
Proof.
  intros Ha Hu. apply forallb_forall. intros x Hx. unfold isMarker.
  destruct (N.eqb x (ch "*")) eqn:E1; [apply N.eqb_eq in E1; subst; tauto|].
  destruct (N.eqb x (ch "_")) eqn:E2; [apply N.eqb_eq in E2; subst; tauto|].
  reflexivity.
Qed.

Lemma firstn_In_le (x : N) : forall a u l, a <= u -> In x (firstn a l) -> In x (firstn u l).
Proof.
  induction a as [|a IH]; intros u l H Hin; [destruct Hin|].
  destruct u as [|u]; [lia|]. destruct l as [|y l]; [destruct Hin|].
  cbn in *. destruct Hin as [->|Hin]; auto. right. apply (IH u); auto. lia.
Qed.

(** The nearest marker ahead: its index, before which there is none. *)
Lemma nextMarker_spec rest :
  match
    match indexOf (ch "*") rest, indexOf (ch "_") rest with
    | Some a, Some u => Some (Nat.min a u)
    | Some a, None => Some a
    | None, Some u => Some u
    | None, None => None
    end
  with
  | Some n => n < List.length rest /\ isMarker (nth n rest 0%N) = true
              /\ forallb (fun x => negb (isMarker x)) (firstn n rest) = true
  | None => forallb (fun x => negb (isMarker x)) rest = true
  end.
Proof.
  pose proof (indexOf_spec (ch "*") rest) as Ha.
  pose proof (indexOf_spec (ch "_") rest) as Hu.
  destruct (indexOf (ch "*") rest) as [a|], (indexOf (ch "_") rest) as [u|].
  - destruct Ha as (A1 & A2 & A3), Hu as (U1 & U2 & U3).
    destruct (Nat.min_spec a u) as [[Hlt ->]|[Hle ->]].
    + split; [exact A1|]. split; [rewrite A2; reflexivity|].
      apply noMarker_intro; auto. intro H. apply U3. eapply firstn_In_le; [|exact H]. lia.
    + split; [exact U1|]. split; [rewrite U2; reflexivity|].
      apply noMarker_intro; auto. intro H. apply A3. eapply firstn_In_le; [|exact H]. lia.
  - destruct Ha as (A1 & A2 & A3). split; [exact A1|]. split; [rewrite A2; reflexivity|].
    apply noMarker_intro; auto. intro H. apply Hu. eapply firstn_In_le with (u := List.length rest) in H; [|lia].
    rewrite firstn_all in H. exact H.
  - destruct Hu as (U1 & U2 & U3). split; [exact U1|]. split; [rewrite U2; reflexivity|].
    apply noMarker_intro; auto. intro H. apply Ha. eapply firstn_In_le with (u := List.length rest) in H; [|lia].
    rewrite firstn_all in H. exact H.
  - apply noMarker_intro; auto.
Qed.

(** What one iteration of the loop pushes and how far it moves. *)
Lemma emphasisStep_spec remaining position :
  position < List.length remaining ->
  inlineSource (fst (emphasisStep remaining position))
  = slice remaining position (snd (emphasisStep remaining position))
  /\ snd (emphasisStep remaining position) <= List.length remaining
  /\ inlineToken (fst (emphasisStep remaining position)) = true.
Proof.
  intro Hlt. unfold emphasisStep.
  assert (Hrest : List.length (skipn position remaining) = List.length remaining - position)
    by apply length_skipn.
  destruct (jsmatch boldItalicRe _) as [m|] eqn:E1.
  { apply boldItalic_shape in E1. destruct E1 as (post & Es & Em & Hc).
    cbn [fst snd inlineSource inlineToken]. rewrite Em, slice_skipn, Es.
    split; [|split; [|exact Hc]].
    - rewrite !app_assoc. rewrite <- !app_assoc.
      change (str "_*" ++ group m 1 ++ str "*_" ++ post)
        with (str "_*" ++ group m 1 ++ str "*_" ++ post).
      replace (str "_*" ++ group m 1 ++ str "*_" ++ post)
        with ((str "_*" ++ group m 1 ++ str "*_") ++ post)
        by (rewrite <- !app_assoc; reflexivity).
      rewrite firstn_app, firstn_all, Nat.sub_diag. cbn [firstn]. rewrite app_nil_r. reflexivity.
    - rewrite Es in Hrest. rewrite !length_app in *. cbn in *. lia. }
  destruct (jsmatch boldRe _) as [m|] eqn:E2.
  { apply bold_shape in E2. destruct E2 as (post & Es & Em & Hc).
    cbn [fst snd inlineSource inlineToken]. rewrite Em, slice_skipn, Es.
    split; [|split; [|exact Hc]].
    - replace (str "*" ++ group m 1 ++ str "*" ++ post)
        with ((str "*" ++ group m 1 ++ str "*") ++ post)
        by (rewrite <- !app_assoc; reflexivity).
      rewrite firstn_app, firstn_all, Nat.sub_diag. cbn [firstn]. rewrite app_nil_r. reflexivity.
    - rewrite Es in Hrest. rewrite !length_app in *. cbn in *. lia. }
  destruct (jsmatch italicRe _) as [m|] eqn:E3.
  { apply italic_shape in E3. destruct E3 as (post & Es & Em & Hc).
    cbn [fst snd inlineSource inlineToken]. rewrite Em, slice_skipn, Es.
    split; [|split; [|exact Hc]].
    - replace (str "_" ++ group m 1 ++ str "_" ++ post)
        with ((str "_" ++ group m 1 ++ str "_") ++ post)
        by (rewrite <- !app_assoc; reflexivity).
      rewrite firstn_app, firstn_all, Nat.sub_diag. cbn [firstn]. rewrite app_nil_r. reflexivity.
    - rewrite Es in Hrest. rewrite !length_app in *. cbn in *. lia. }
  pose proof (nextMarker_spec (skipn position remaining)) as Hn.
  destruct (match indexOf (ch "*") (skipn position remaining),
                  indexOf (ch "_") (skipn position remaining) with
            | Some a, Some u => Some (Nat.min a u)
            | Some a, None => Some a
            | None, Some u => Some u
            | None, None => None
            end) as [n|].
  - destruct Hn as (N1 & N2 & N3).
    destruct (Nat.ltb position (position + n)) eqn:El; cbn [fst snd inlineSource inlineToken].
    + apply Nat.ltb_lt in El. split; [reflexivity|]. split; [lia|].
      rewrite slice_skipn, N3. rewrite orb_true_l, andb_true_r.
      destruct (skipn position remaining) as [|x r]; [cbn in N1; lia|].
      destruct n; [lia|reflexivity].
    + apply Nat.ltb_ge in El. assert (n = 0) by lia. subst n.
      split; [reflexivity|]. split; [lia|].
      rewrite slice_skipn.
      destruct (skipn position remaining) as [|x r]; [cbn in N1; lia|].
      cbn in N2 |- *. rewrite N2. apply orb_true_r.
  - apply Nat.ltb_lt in Hlt as Hlt'. rewrite Hlt'. cbn [fst snd inlineSource inlineToken].
    split; [reflexivity|]. split; [lia|].
    unfold slice. rewrite <- Hrest, firstn_all, Hn, orb_true_l, andb_true_r.
    destruct (skipn position remaining); [cbn in Hrest; lia|reflexivity].
Qed.

Lemma emphasisLoop_spec fuel : forall remaining position nodes result,
  position <= List.length remaining ->
  emphasisLoop fuel remaining position nodes = Done result ->
  List.concat (map inlineSource nodes) = firstn position remaining ->
  forallb inlineToken nodes = true ->
  List.concat (map inlineSource result) = remaining
  /\ forallb inlineToken result = true.
Proof.
  induction fuel as [|fuel IH]; intros remaining position nodes result Hle H Hc Ht;
    cbn [emphasisLoop] in H;
    destruct (Nat.ltb position (List.length remaining)) eqn:E;
    try discriminate;
    try (apply Nat.ltb_ge in E; injection H as <-;
         rewrite Hc, firstn_all2 by lia; auto).
  apply Nat.ltb_lt in E.
  destruct (emphasisStep_spec remaining position E) as (Hs & Hb & Hk).
  pose proof (emphasisStep_progress remaining position) as Hp.
  destruct (emphasisStep remaining position) as [node position']. cbn [fst snd] in *.
  apply IH in H; auto.
  - rewrite map_app, concat_app, Hc. cbn. rewrite app_nil_r, Hs.
    apply firstn_slice. lia.
  - rewrite forallb_app, Ht. cbn. rewrite Hk. reflexivity.
Qed.

(** X1.  The inline tokenizer loses no character: for every text it
    returns, and the source texts of the nodes it returns (the content of
    a text node, the content of a bold or italic node between its
    markers), put end to end, are the text itself. *)
Theorem tokenizer_round_trip text :
  exists inline,
    parseInlineEmphasis text = Done inline
    /\ List.concat (map inlineSource inline) = text.
Proof.
  destruct (parseInlineEmphasis_total text) as (inline & H). exists inline.
  split; [exact H|]. unfold parseInlineEmphasis in H.
  apply emphasisLoop_spec in H; [tauto|lia|reflexivity|reflexivity].
Qed.

(** X2.  For every text the inline tokenizer returns nodes of four
    shapes only: a text node that is not empty and is either free of
    markers or one marker character alone, a bold node and an italic node
    whose content is not empty and holds no line terminator, and a bold
    node around exactly one such italic node. *)
Theorem tokenizer_nodes text :
  exists inline,
    parseInlineEmphasis text = Done inline
    /\ forallb inlineToken inline = true.
Proof.
  destruct (parseInlineEmphasis_total text) as (inline & H). exists inline.
  split; [exact H|]. unfold parseInlineEmphasis in H.
  apply emphasisLoop_spec in H; [tauto|lia|reflexivity|reflexivity].
Qed.

Lemma requires_boldItalicRe : requires (ch "_") boldItalicRe.
Proof. unfold boldItalicRe. solve_requires. Qed.

Lemma requires_boldRe : requires (ch "*") boldRe.
Proof. unfold boldRe. solve_requires. Qed.

Lemma requires_italicRe : requires (ch "_") italicRe.
Proof. unfold italicRe. solve_requires. Qed.

Lemma noMarker_includes s :
  forallb (fun x => negb (isMarker x)) s = true ->
  includes (ch "*") s = false /\ includes (ch "_") s = false.
Proof.
  intro H. rewrite forallb_forall in H.
  split; apply not_true_is_false; intro Hin; apply includes_In in Hin;
    apply H in Hin; discriminate Hin.
Qed.

Lemma indexOf_none c s : includes c s = false -> indexOf c s = None.
Proof.
  intro H. pose proof (indexOf_spec c s) as Hs. destruct (indexOf c s) as [i|]; [|reflexivity].
  destruct Hs as (H1 & H2 & _). exfalso.
  assert (In c s) by (rewrite <- H2; apply nth_In; exact H1).
  apply includes_In in H0. congruence.
Qed.

Lemma parseInlineEmphasis_plain text :
  forallb (fun x => negb (isMarker x)) text = true ->
  parseInlineEmphasis text
  = Done (match text with [] => [] | _ => [Text text] end).
Proof.
  intro H. destruct text as [|c text]; [reflexivity|].
  destruct (noMarker_includes _ H) as [Ha Hu].
  unfold parseInlineEmphasis. cbn [List.length].
  rewrite emphasisLoop_step by (cbn; lia).
  unfold emphasisStep. cbn [skipn].
  rewrite (jsmatch_requires_none _ _ _ requires_boldItalicRe Hu).
  rewrite (jsmatch_requires_none _ _ _ requires_boldRe Ha).
  rewrite (jsmatch_requires_none _ _ _ requires_italicRe Hu).
  rewrite (indexOf_none _ _ Ha), (indexOf_none _ _ Hu).
  change (Nat.ltb 0 (List.length (c :: text))) with true. cbn [fst snd app].
  rewrite emphasisLoop_done by lia.
  unfold slice. rewrite Nat.sub_0_r. cbn [skipn]. rewrite firstn_all. reflexivity.
Qed.

(** X3.  A text without asterisk and underscore is returned by the
    inline tokenizer as one text node holding the whole text, and as no
    node at all when the text is empty. *)
Theorem tokenizer_plain_text text :
  forallb (fun x => negb (isMarker x)) text = true ->
  parseInlineEmphasis text
  = Done (match text with [] => [] | _ => [Text text] end).
Proof. apply parseInlineEmphasis_plain. Qed.

Lemma tokenizer_plain_text_witness :
  parseInlineEmphasis (str "Hello, world") = Done [Text (str "Hello, world")].
Proof. exact (tokenizer_plain_text (str "Hello, world") eq_refl). Defined.

(** *** Header and image lines *)

Lemma forallb_eqb_repeat c w :
  forallb (N.eqb c) w = true -> w = repeat c (List.length w).
Proof.
  induction w as [|x w IH]; cbn; [reflexivity|]. intro H.
  apply andb_true_iff in H. destruct H as [Hx Hw]. apply N.eqb_eq in Hx.
  subst x. f_equal. auto.
Qed.

Lemma header_shape line m :
  jsmatch headerRe line = Some m ->
  exists ws,
    line = hashes (List.length (group m 1)) ++ ws ++ group m 2
    /\ 1 <= List.length (group m 1) <= 6
    /\ ws <> [] /\ forallb is_space ws = true
    /\ emphasisContent (group m 2) = true.
Proof.
  intro H. apply jsmatch_anchored in H. destruct H as (st' & Hd & ->).
  unfold headerRe in Hd. den_open Hd.
  replace (group _ 1) with w.
  2:{ unfold group, group_opt. cbn [find_cap mr_caps mr_input Nat.eqb]. symmetry.
      apply (slice_at [] w); cbn; lia. }
  replace (group _ 2) with w1.
  2:{ unfold group, group_opt. cbn [find_cap mr_caps mr_input Nat.eqb]. symmetry.
      rewrite app_assoc.
      apply slice_at; [rewrite length_app; lia | reflexivity]. }
  exists w0. split.
  { unfold hashes. rewrite <- (forallb_eqb_repeat _ _ Hp), app_nil_r. reflexivity. }
  split; [specialize (Hhi 6 eq_refl); cbn in Hhi; lia|].
  split; [intros ->; cbn in *; lia|]. split; [exact Hp0|].
  apply emphasisContent_intro; auto.
Qed.

Lemma tokens_nonempty content children :
  parseInlineEmphasis content = Done children -> content <> [] -> children <> [].
Proof.
  intros H Hc ->. unfold parseInlineEmphasis in H.
  apply emphasisLoop_spec in H; [|lia|reflexivity|reflexivity].
  destruct H as [H _]. cbn in H. congruence.
Qed.

Ltac not_from_buttons :=
  match goal with
  | E : multiButton _ = Some _ |- _ =>
      apply multiButton_inv in E; destruct E as (? & ? & _ & _ & _ & E); congruence
  end.

(** X4.  Every header node [parseLine] returns has a level from 1 to
    6 and at least one child; the line is that many number signs, white
    space that is not empty, and a content that is not empty and holds no
    line terminator, and the children are the inline tokens of that
    content. *)
Theorem header_nodes line level children :
  parseLine line = Done (Some (Header level children)) ->
  1 <= level <= 6
  /\ children <> []
  /\ exists ws content,
       line = hashes level ++ ws ++ content
       /\ ws <> [] /\ forallb is_space ws = true
       /\ emphasisContent content = true
       /\ parseInlineEmphasis content = Done children.
Proof.
  intro H. parseLine_cases H; try discriminate; try not_from_buttons.
  subst.
  match goal with
  | E : jsmatch headerRe _ = Some ?m |- _ =>
      destruct (header_shape _ _ E) as (ws & El & Hl & Hw & Hs & Hc)
  end.
  split; [exact Hl|].
  match goal with
  | E : parseInlineEmphasis ?c = Done _ |- _ =>
      split; [apply (tokens_nonempty c); [exact E|] | exists ws, c; auto]
  end.
  intros E0. rewrite E0 in Hc. discriminate.
Qed.

Lemma header_nodes_witness :
  1 <= 2 <= 6
  /\ [Text (str "Sign "); Bold (str "in")] <> []
  /\ exists ws content,
       str "## Sign *in*" = hashes 2 ++ ws ++ content
       /\ ws <> [] /\ forallb is_space ws = true
       /\ emphasisContent content = true
       /\ parseInlineEmphasis content = Done [Text (str "Sign "); Bold (str "in")].
Proof.
  exact (header_nodes (str "## Sign *in*") 2 [Text (str "Sign "); Bold (str "in")] eq_refl).
Defined.

Lemma noneOf_one_includes a w :
  forallb (fun c => negb (includes c [ch a])) w = true -> includes (ch a) w = false.
Proof.
  intro H. apply not_true_is_false. intro Hin. apply includes_In in Hin.
  rewrite forallb_forall in H. apply H in Hin. cbn in Hin.
  rewrite N.eqb_refl in Hin. discriminate.
Qed.

Lemma image_shape line m :
  jsmatch imageRe line = Some m ->
  line = str "![" ++ group m 1 ++ str "](" ++ group m 2 ++ str ")"
  /\ includes (ch "]") (group m 1) = false
  /\ group m 2 <> [] /\ includes (ch ")") (group m 2) = false.
Proof.
  intro H. apply jsmatch_anchored in H. destruct H as (st' & Hd & ->).
  unfold imageRe in Hd. den_open Hd. eq_chars.
  replace (group _ 1) with w.
  2:{ unfold group, group_opt. cbn [find_cap mr_caps mr_input Nat.eqb]. symmetry.
      apply (slice_at [33; 91]%N w); cbn; lia. }
  replace (group _ 2) with w0.
  2:{ unfold group, group_opt. cbn [find_cap mr_caps mr_input Nat.eqb]. symmetry.
      match goal with
      | |- slice ?i _ _ = _ =>
          replace i with (([33; 91]%N ++ w ++ [93; 40]%N) ++ w0 ++ [41]%N)
            by (cbn; rewrite <- app_assoc; reflexivity)
      end.
      apply slice_at; [|reflexivity]. cbn. rewrite length_app. cbn. lia. }
  split; [reflexivity|]. split; [apply noneOf_one_includes; exact Hp1|].
  split; [intros ->; cbn in *; lia|]. apply noneOf_one_includes; exact Hp4.
Qed.

(** X5.  Every image node [parseLine] returns comes from a line that
    is exactly an exclamation mark, the alternative text in square
    brackets and the address in parentheses; the alternative text holds no
    closing bracket, the address is not empty and holds no closing
    parenthesis. *)
Theorem image_nodes line alt src :
  parseLine line = Done (Some (Image alt src)) ->
  line = str "![" ++ alt ++ str "](" ++ src ++ str ")"
  /\ includes (ch "]") alt = false
  /\ src <> [] /\ includes (ch ")") src = false.
Proof.
  intro H. parseLine_cases H; try discriminate; try not_from_buttons.
  subst. apply image_shape. assumption.
Qed.

Lemma image_nodes_witness :
  str "![Logo](logo.png)" = str "![" ++ str "Logo" ++ str "](" ++ str "logo.png" ++ str ")"
  /\ includes (ch "]") (str "Logo") = false
  /\ str "logo.png" <> [] /\ includes (ch ")") (str "logo.png") = false.
Proof. exact (image_nodes (str "![Logo](logo.png)") (str "Logo") (str "logo.png") eq_refl). Defined.

(** *** Plain lines *)














(** *** Trimming and splitting *)

Lemma trimStart_fix s :
  match s with [] => True | c :: _ => is_space c = false end -> trimStart s = s.
Proof. destruct s as [|c s]; cbn; [reflexivity|]. intros ->. reflexivity. Qed.

Lemma trimStart_head_or_nil s :
  match trimStart s with [] => True | c :: _ => is_space c = false end.
Proof.
  destruct (trimStart s) as [|c t] eqn:E; [exact I|]. eapply trimStart_head; eauto.
Qed.

Lemma trimStart_idem s : trimStart (trimStart s) = trimStart s.
Proof. apply trimStart_fix, trimStart_head_or_nil. Qed.

Lemma trimStart_snoc c : forall s,
  is_space c = false -> trimStart (s ++ [c]) = trimStart s ++ [c].
Proof.
  intros s Hc. induction s as [|x s IH]; cbn; [rewrite Hc; reflexivity|].
  destruct (is_space x); [exact IH|reflexivity].
Qed.

Lemma trimEnd_cons c t : is_space c = false -> trimEnd (c :: t) = c :: trimEnd t.
Proof.
  intro Hc. unfold trimEnd. cbn [rev]. rewrite trimStart_snoc by exact Hc.
  rewrite rev_app_distr. reflexivity.
Qed.

Lemma trimEnd_idem s : trimEnd (trimEnd s) = trimEnd s.
Proof. unfold trimEnd. rewrite rev_involutive, trimStart_idem. reflexivity. Qed.

(** [trim] leaves a trimmed string as it is. *)
Lemma trim_idem s : trim (trim s) = trim s.
Proof.
  unfold trim. pose proof (trimStart_head_or_nil s) as Hh.
  destruct (trimStart s) as [|c t]; [reflexivity|].
  rewrite trimEnd_cons by exact Hh. cbn [trimStart]. rewrite Hh.
  rewrite <- trimEnd_cons by exact Hh. apply trimEnd_idem.
Qed.

Lemma split_no_sep sep : forall s, Forall (fun p => ~ In sep p) (split sep s).
Proof.
  induction s as [|c s IH]; cbn [split]; [repeat constructor; auto|].
  destruct (N.eqb c sep) eqn:E.
  - constructor; auto.
  - apply N.eqb_neq in E. destruct (split sep s) as [|h r]; [repeat constructor; cbn; tauto|].
    inversion IH; subst. constructor; auto. cbn. intros [H|H]; auto.
Qed.

Lemma split_length sep : forall s,
  List.length (split sep s) = S (List.length (filter (N.eqb sep) s)).
Proof.
  induction s as [|c s IH]; cbn [split filter]; [reflexivity|].
  rewrite (N.eqb_sym sep c). destruct (N.eqb c sep); cbn [List.length]; [lia|].
  destruct (split sep s); cbn in *; lia.
Qed.

(** The entries of [splitTrim]: none is empty, each is trimmed, none holds
    the separator; and there is at most one more than there are
    separators. *)
Lemma splitTrim_cells sep s :
  Forall (cellOf sep) (splitTrim sep s)
  /\ List.length (splitTrim sep s) <= S (List.length (filter (N.eqb sep) s)).
Proof.
  split.
  - unfold splitTrim, nonEmpty. apply Forall_forall. intros c Hc.
    apply filter_In in Hc. destruct Hc as [Hin Ht].
    apply in_map_iff in Hin. destruct Hin as (p & <- & Hp).
    split; [intros E; rewrite E in Ht; discriminate|].
    split; [apply trim_idem|].
    apply not_true_is_false. intro Hi. apply includes_In, trim_incl in Hi.
    pose proof (split_no_sep sep s) as Hs. rewrite Forall_forall in Hs.
    exact (Hs p Hp Hi).
  - unfold splitTrim, nonEmpty. rewrite <- split_length.
    rewrite <- (length_map trim (split sep s)). apply filter_length_le.
Qed.

(** ** The parser reads the lines through [lineOf] only *)

(** *** [parse] depends on the treated lines only *)

Lemma lineAt_map opts lines i : lineAt opts lines i = nth i (map (lineOf opts) lines) [].
Proof.
  unfold lineAt. transitivity (nth i (map (lineOf opts) lines) (lineOf opts [])).
  - symmetry. apply map_nth.
  - f_equal. unfold lineOf. destruct (preserveWhitespace opts); reflexivity.
Qed.

Section SameLines.
Variables o1 o2 : ParserOptions.
Variables l1 l2 : list jsstring.
Hypothesis same : map (lineOf o1) l1 = map (lineOf o2) l2.

Lemma same_length : List.length l1 = List.length l2.
Proof. rewrite <- (length_map (lineOf o1) l1), same. apply length_map. Qed.

Lemma same_lineAt i : lineAt o1 l1 i = lineAt o2 l2 i.
Proof. rewrite !lineAt_map, same. reflexivity. Qed.

Ltac same_head i :=
  rewrite ?same_length;
  let c1 := fresh "c" in
  let c2 := fresh "c" in
  let E := fresh "E" in
  pose proof (same_lineAt i) as E;
  set (c1 := lineAt o1 l1 i) in *;
  set (c2 := lineAt o2 l2 i) in *;
  clearbody c1 c2; subst c1.

Ltac same_tail IHloop :=
  match goal with
  | |- bind ?x _ = bind ?x _ =>
      destruct x as [[? ?]|]; cbn [bind]; [apply IHloop | reflexivity]
  end.

Ltac same_rest IHcard IHloop IHcont :=
  destruct (jsmatch cardRe _); [rewrite IHcard; same_tail IHloop|];
  destruct (jsmatch gridRe _); [rewrite IHcont; same_tail IHloop|];
  destruct (jsmatch divRe _);
    [destruct (includes _ _); [|rewrite IHcont; same_tail IHloop]|];
    (destruct (pushLine _ _); cbn [bind]; [apply IHloop | reflexivity]).

Ltac same_loop IHcard IHloop IHcont :=
  intros i depth cs;
  same_head i;
  destruct (Nat.ltb i (List.length l2) && Nat.ltb 0 depth); [|reflexivity];
  destruct (eqb_str _ _); cbn [andb];
    [destruct (Nat.eqb (depth - 1) 0); [reflexivity|]|];
    same_rest IHcard IHloop IHcont.

Lemma blocks_same : forall fuel,
  (forall i t, parseCard fuel o1 l1 i t = parseCard fuel o2 l2 i t)
  /\ (forall i d cs, cardLoop fuel o1 l1 i d cs = cardLoop fuel o2 l2 i d cs)
  /\ (forall i ty c, parseContainer fuel o1 l1 i ty c = parseContainer fuel o2 l2 i ty c)
  /\ (forall i d cs, containerLoop fuel o1 l1 i d cs = containerLoop fuel o2 l2 i d cs).
Proof.
  induction fuel as [|fuel (IHcard & IHcloop & IHcont & IHkloop)];
    [repeat split; reflexivity|].
  repeat split.
  - intros i t. cbn [parseCard]. rewrite IHcloop. reflexivity.
  - cbn [cardLoop]. same_loop IHcard IHcloop IHcont.
  - intros i ty c. cbn [parseContainer]. rewrite IHkloop. reflexivity.
  - cbn [containerLoop]. same_loop IHcard IHkloop IHcont.
Qed.

Lemma tableRows_same : forall r1 r2 i rows,
  map (lineOf o1) r1 = map (lineOf o2) r2 ->
  tableRows o1 r1 i rows = tableRows o2 r2 i rows.
Proof.
  induction r1 as [|a r1 IH]; intros [|b r2] i rows H; try discriminate; [reflexivity|].
  cbn [map] in H. injection H as Hab Hr. cbn [tableRows]. rewrite Hab.
  destruct (_ || _); [reflexivity|]. apply IH. exact Hr.
Qed.

Lemma skipSeparator_same i : skipSeparator o1 l1 i = skipSeparator o2 l2 i.
Proof. unfold skipSeparator. rewrite same_length, same_lineAt. reflexivity. Qed.

(** The branch of strict mode is never taken: the classifier always
    returns a node. *)
Lemma parseStep_same fuel st : parseStep fuel o1 l1 st = parseStep fuel o2 l2 st.
Proof.
  destruct (blocks_same fuel) as (Hcard & _ & Hcont & _).
  unfold parseStep. rewrite skipSeparator_same.
  rewrite (tableRows_same (skipn (skipSeparator o2 l2 (ps_i st + 1)) l1)
             (skipn (skipSeparator o2 l2 (ps_i st + 1)) l2))
    by (rewrite <- !skipn_map, same; reflexivity).
  same_head (ps_i st).
  destruct (negb (truthy _)); [reflexivity|].
  destruct (isTableLine _); [reflexivity|].
  destruct (jsmatch cardRe _); [rewrite Hcard; reflexivity|].
  destruct (jsmatch gridRe _); [rewrite Hcont; reflexivity|].
  destruct (jsmatch divRe _); [destruct (includes _ _)|];
    try (destruct (parseLine_total c0) as (n & ->); reflexivity).
  rewrite Hcont. reflexivity.
Qed.

Lemma parseLoop_same : forall fuel st,
  parseLoop fuel o1 l1 st = parseLoop fuel o2 l2 st.
Proof.
  induction fuel as [|fuel IH]; intro st; cbn [parseLoop]; rewrite same_length;
    [reflexivity|].
  destruct (Nat.ltb _ _); [|reflexivity]. rewrite parseStep_same.
  destruct (parseStep fuel o2 l2 st); cbn [bind]; [apply IH|reflexivity].
Qed.
End SameLines.

Lemma parse_same o1 o2 markdown1 markdown2 :
  map (lineOf o1) (split 10 markdown1) = map (lineOf o2) (split 10 markdown2) ->
  parse o1 markdown1 = parse o2 markdown2.
Proof.
  intro H. unfold parse.
  rewrite (same_length _ _ _ _ H), (parseLoop_same _ _ _ _ H). reflexivity.
Qed.

(** X10.  [parse] sees the input and the options only through the
    lines as [lineOf] hands them on: two inputs, under two option records,
    whose lines agree after that treatment have the same outcome. *)
Theorem parse_reads_lines_through_lineOf opts1 opts2 markdown1 markdown2 :
  map (lineOf opts1) (split 10 markdown1) = map (lineOf opts2) (split 10 markdown2) ->
  parse opts1 markdown1 = parse opts2 markdown2.
Proof. apply parse_same. Qed.

Lemma parse_reads_lines_witness :
  parse {| strict := true; preserveWhitespace := true |} (str "# Title" ++ lf ++ str "Email ___")
  = parse defaultOptions (str " # Title" ++ lf ++ str "Email ___  ").
Proof.
  apply (parse_reads_lines_through_lineOf
           {| strict := true; preserveWhitespace := true |} defaultOptions
           (str "# Title" ++ lf ++ str "Email ___")
           (str " # Title" ++ lf ++ str "Email ___  ")).
  reflexivity.
Defined.

(** X11.  The option [strict] has no effect on [parse]: the branch
    that would record a diagnostic is never reached, so two option records
    that differ in it alone give the same outcome on every input. *)
Theorem parse_ignores_strict s1 s2 pw markdown :
  parse {| strict := s1; preserveWhitespace := pw |} markdown
  = parse {| strict := s2; preserveWhitespace := pw |} markdown.
Proof. apply parse_same. reflexivity. Qed.

(** X12.  Unless [preserveWhitespace] is set, [parse] ignores the
    white space at both ends of every line: two inputs whose lines agree
    after trimming have the same outcome. *)
Theorem parse_ignores_outer_white_space opts markdown1 markdown2 :
  preserveWhitespace opts = false ->
  map trim (split 10 markdown1) = map trim (split 10 markdown2) ->
  parse opts markdown1 = parse opts markdown2.
Proof.
  intros Hp H. apply parse_same.
  unfold lineOf. rewrite Hp. exact H.
Qed.

Lemma parse_ignores_outer_white_space_witness :
  parse defaultOptions (str "   # Title  " ++ lf ++ str "  Email ___   ")
  = parse defaultOptions (str "# Title" ++ lf ++ str "Email ___").
Proof.
  exact (parse_ignores_outer_white_space defaultOptions
           (str "   # Title  " ++ lf ++ str "  Email ___   ")
           (str "# Title" ++ lf ++ str "Email ___") eq_refl eq_refl).
Defined.

(** *** What a block holds *)

Lemma blocksWellFormed_children children :
  (fix all (l : list MarkdownNode) : bool :=
     match l with
     | [] => true
     | x :: t => blockChildType (type x) && blocksWellFormed x && all t
     end) children
  = forallb blockChild children.
Proof. induction children as [|x t IH]; [reflexivity|]. rewrite IH. reflexivity. Qed.

Lemma blocksWellFormed_card tc children :
  blocksWellFormed (Card tc children) = forallb blockChild children.
Proof. apply blocksWellFormed_children. Qed.

Lemma blocksWellFormed_container ty config children :
  blocksWellFormed (containerNode ty config children) = forallb blockChild children.
Proof. destruct ty; apply blocksWellFormed_children. Qed.

Lemma lineNode_blockChild n : lineType (type n) = true -> blockChild n = true.
Proof. destruct n; cbn; intro H; try discriminate H; reflexivity. Qed.

Lemma pushLine_blockChild line cs0 cs :
  pushLine line cs0 = Done cs -> forallb blockChild cs0 = true -> forallb blockChild cs = true.
Proof.
  unfold pushLine. destruct (truthy line); [|intros [= <-]; auto].
  destruct (parseLine line) as [[n|]|] eqn:E; cbn [bind]; try discriminate;
    intros [= <-] Hq; [|exact Hq].
  rewrite forallb_app, Hq. cbn. rewrite (lineNode_blockChild n); [reflexivity|].
  eapply parseLine_type; eauto.
Qed.

Ltac wf_tail IHloop Hq :=
  match goal with
  | H : ?loop _ _ _ _ _ (_ ++ [?node]) = Done _ |- _ =>
      apply IHloop in H; [exact H|]; rewrite forallb_app, Hq; cbn [forallb];
      rewrite andb_true_r
  end.

Ltac wf_card IHcard IHloop Hq H :=
  match type of H with
  | context [parseCard ?f ?o ?l ?i ?t] =>
      let E := fresh "E" in
      destruct (parseCard f o l i t) as [[? ?]|] eqn:E; cbn [bind] in H; [|discriminate H];
      apply IHcard in E; destruct E as (tc & cs' & -> & E);
      wf_tail IHloop Hq; unfold blockChild; rewrite blocksWellFormed_card, E; reflexivity
  end.

Ltac wf_cont IHcont IHloop Hq H :=
  match type of H with
  | context [parseContainer ?f ?o ?l ?i ?ty ?c] =>
      let E := fresh "E" in
      destruct (parseContainer f o l i ty c) as [[? ?]|] eqn:E; cbn [bind] in H; [|discriminate H];
      apply IHcont in E; destruct E as (cs' & -> & E);
      wf_tail IHloop Hq; unfold blockChild; rewrite blocksWellFormed_container, E;
      destruct ty; reflexivity
  end.

Ltac wf_line IHloop Hq H :=
  match type of H with
  | context [pushLine ?l ?c] =>
      let E := fresh "E" in
      destruct (pushLine l c) eqn:E; cbn [bind] in H; [|discriminate H];
      apply IHloop in H; [exact H|]; eapply pushLine_blockChild; eauto
  end.

Ltac wf_loop IHcard IHloop IHcont :=
  let H := fresh "H" in
  let Hq := fresh "Hq" in
  intros i depth cs0 cs j H Hq;
  destruct (Nat.ltb i _ && Nat.ltb 0 depth); [|injection H as <- <-; exact Hq];
  destruct (eqb_str _ _); cbn [andb] in H;
    [destruct (Nat.eqb (depth - 1) 0); [injection H as <- <-; exact Hq|]|];
    (destruct (jsmatch cardRe _); [wf_card IHcard IHloop Hq H|];
     destruct (jsmatch gridRe _); [wf_cont IHcont IHloop Hq H|];
     destruct (jsmatch divRe _);
       [destruct (includes _ _); [wf_line IHloop Hq H | wf_cont IHcont IHloop Hq H]
       | wf_line IHloop Hq H]).

Lemma blocks_wellFormed opts lines : forall fuel,
  (forall i t node next,
      parseCard fuel opts lines i t = Done (node, next) ->
      exists tc cs, node = Card tc cs /\ forallb blockChild cs = true)
  /\ (forall i d cs0 cs j,
      cardLoop fuel opts lines i d cs0 = Done (cs, j) ->
      forallb blockChild cs0 = true -> forallb blockChild cs = true)
  /\ (forall i ty c node next,
      parseContainer fuel opts lines i ty c = Done (node, next) ->
      exists cs, node = containerNode ty c cs /\ forallb blockChild cs = true)
  /\ (forall i d cs0 cs j,
      containerLoop fuel opts lines i d cs0 = Done (cs, j) ->
      forallb blockChild cs0 = true -> forallb blockChild cs = true).
Proof.
  induction fuel as [|fuel (IHcard & IHcloop & IHcont & IHkloop)];
    [repeat split; intros; discriminate|].
  repeat split.
  - intros i t node next H. cbn [parseCard] in H.
    destruct (cardLoop _ _ _ _ _ _) as [[cs j]|] eqn:E; cbn [bind] in H; [|discriminate].
    destruct (titleChildrenOf t); cbn [bind] in H; [|discriminate].
    injection H as <- <-. eexists _, cs. split; [reflexivity|].
    eapply IHcloop; eauto.
  - cbn [cardLoop]. wf_loop IHcard IHcloop IHcont.
  - intros i ty c node next H. cbn [parseContainer] in H.
    destruct (containerLoop _ _ _ _ _ _) as [[cs j]|] eqn:E; cbn [bind] in H; [|discriminate].
    injection H as <- <-. exists cs. split; [reflexivity|].
    eapply IHkloop; eauto.
  - cbn [containerLoop]. wf_loop IHcard IHkloop IHcont.
Qed.

Lemma parseStep_pushed fuel opts lines st st' :
  parseStep fuel opts lines st = Done st' ->
  ps_nodes st' = ps_nodes st \/
  exists n, ps_nodes st' = ps_nodes st ++ [n] /\
    ((exists rows i0 i',
        n = Table (splitTrim (ch "|") (lineAt opts lines (ps_i st))) rows
        /\ tableRows opts (skipn i0 lines) i0 [] = (rows, i'))
     \/ (exists t next, parseCard fuel opts lines (ps_i st) t = Done (n, next))
     \/ (exists ty c next, parseContainer fuel opts lines (ps_i st) ty c = Done (n, next))
     \/ parseLine (lineAt opts lines (ps_i st)) = Done (Some n)).
Proof.
  unfold parseStep.
  destruct (negb (truthy _)); [intros [= <-]; left; reflexivity|].
  destruct (isTableLine _).
  { destruct (tableRows _ _ _ _) as [rows i'] eqn:E. intros [= <-]. right.
    eexists. split; [reflexivity|]. left. eauto. }
  destruct (jsmatch cardRe _).
  { destruct (parseCard _ _ _ _ _) as [[node next]|] eqn:E; cbn; [|discriminate].
    intros [= <-]. right. eexists. split; [reflexivity|]. right. left. eauto. }
  destruct (jsmatch gridRe _).
  { destruct (parseContainer _ _ _ _ _ _) as [[node next]|] eqn:E; cbn; [|discriminate].
    intros [= <-]. right. eexists. split; [reflexivity|]. right. right. left. eauto. }
  match goal with |- _ -> ?G =>
  assert (Hline :
    (node <- parseLine (lineAt opts lines (ps_i st)) ;;
     Done match node with
          | Some n => {| ps_i := ps_i st + 1; ps_nodes := ps_nodes st ++ [n];
                         ps_errors := ps_errors st |}
          | None => {| ps_i := ps_i st + 1; ps_nodes := ps_nodes st;
                       ps_errors := if strict opts
                                    then ps_errors st ++ [unableToParse (ps_i st) (lineAt opts lines (ps_i st))]
                                    else ps_errors st |}
          end) = Done st' -> G)
  end.
  { destruct (parseLine (lineAt opts lines (ps_i st))) as [[n|]|] eqn:E; cbn;
      try discriminate; intros [= <-]; [|left; reflexivity].
    right. eexists. split; [reflexivity|]. do 3 right. reflexivity. }
  destruct (jsmatch divRe _); [destruct (includes _ _)|]; try apply Hline.
  destruct (parseContainer _ _ _ _ _ _) as [[node next]|] eqn:E; cbn; [|discriminate].
  intros [= <-]. right. eexists. split; [reflexivity|]. right. right. left. eauto.
Qed.

Lemma parseStep_wellFormed fuel opts lines st st' :
  parseStep fuel opts lines st = Done st' ->
  forallb blocksWellFormed (ps_nodes st) = true ->
  forallb blocksWellFormed (ps_nodes st') = true.
Proof.
  intros H Hall.
  destruct (parseStep_pushed _ _ _ _ _ H) as [->|(n & -> & Hn)]; [exact Hall|].
  rewrite forallb_app, Hall. cbn [forallb andb]. rewrite andb_true_r.
  destruct (blocks_wellFormed opts lines fuel) as (Hcard & _ & Hcont & _).
  destruct Hn as [(rows & i0 & i' & -> & _)|[(t & next & E)|[(ty & c & next & E)|E]]].
  - reflexivity.
  - apply Hcard in E. destruct E as (tc & cs & -> & E).
    rewrite blocksWellFormed_card. exact E.
  - apply Hcont in E. destruct E as (cs & -> & E).
    rewrite blocksWellFormed_container. exact E.
  - pose proof (parseLine_type _ _ E) as Ht.
    apply lineNode_blockChild in Ht. unfold blockChild in Ht.
    apply andb_true_iff in Ht. apply Ht.
Qed.

Lemma parseLoop_wellFormed opts lines : forall fuel st st',
  parseLoop fuel opts lines st = Done st' ->
  forallb blocksWellFormed (ps_nodes st) = true ->
  forallb blocksWellFormed (ps_nodes st') = true.
Proof.
  induction fuel as [|fuel IH]; intros st st' H Hall; cbn [parseLoop] in H;
    destruct (Nat.ltb (ps_i st) (List.length lines));
    try discriminate; try (injection H as <-; exact Hall).
  destruct (parseStep fuel opts lines st) as [st1|] eqn:E; cbn [bind] in H; [|discriminate].
  eapply IH; [exact H|]. eapply parseStep_wellFormed; eauto.
Qed.

(** X9.  In every result of [parse], at every depth, the children
    of a card, a grid or a plain block are cards, grids, plain blocks or
    nodes of the line classifier: a table (like a workflow or a screen)
    never occurs inside a block. *)
Theorem blocks_hold_no_table opts markdown :
  exists result, parse opts markdown = Done result
    /\ forallb blocksWellFormed (nodes result) = true.
Proof.
  destruct (parse_total_no_errors opts markdown) as (ns & E).
  eexists. split; [exact E|].
  revert E. unfold parse.
  destruct (parseLoop _ _ _ _) as [st|] eqn:E; cbn [bind]; [|discriminate].
  intros [= <- _]. eapply parseLoop_wellFormed; [exact E|]. reflexivity.
Qed.

(** *** The cells of a table and the options of a field *)

Lemma tableRows_cells opts : forall rest i rows0 rows i',
  tableRows opts rest i rows0 = (rows, i') ->
  Forall (Forall (cellOf (ch "|"))) rows0 ->
  Forall (Forall (cellOf (ch "|"))) rows.
Proof.
  induction rest as [|l rest IH]; intros i rows0 rows i' H Hall; cbn [tableRows] in H.
  - injection H as <- <-. exact Hall.
  - destruct (negb _ || negb _); [injection H as <- <-; exact Hall|].
    eapply IH; [exact H|]. apply Forall_app. split; [exact Hall|].
    constructor; [|constructor]. apply (proj1 (splitTrim_cells _ _)).
Qed.

Lemma parseStep_tableCells fuel opts lines st st' :
  parseStep fuel opts lines st = Done st' ->
  Forall tableCells (ps_nodes st) -> Forall tableCells (ps_nodes st').
Proof.
  intros H Hall.
  destruct (parseStep_pushed _ _ _ _ _ H) as [->|(n & -> & Hn)]; [exact Hall|].
  apply Forall_app. split; [exact Hall|]. constructor; [|constructor].
  destruct (blocks_wellFormed opts lines fuel) as (Hcard & _ & Hcont & _).
  destruct Hn as [(rows & i0 & i' & -> & Hr)|[(t & next & E)|[(ty & c & next & E)|E]]].
  - split; [apply (proj1 (splitTrim_cells _ _))|]. eapply tableRows_cells; [exact Hr|constructor].
  - apply Hcard in E. destruct E as (tc & cs & -> & _). exact I.
  - apply Hcont in E. destruct E as (cs & -> & _). destruct ty; exact I.
  - pose proof (parseLine_type _ _ E) as Ht. destruct n; try exact I; discriminate Ht.
Qed.

Lemma parseLoop_tableCells opts lines : forall fuel st st',
  parseLoop fuel opts lines st = Done st' ->
  Forall tableCells (ps_nodes st) -> Forall tableCells (ps_nodes st').
Proof.
  induction fuel as [|fuel IH]; intros st st' H Hall; cbn [parseLoop] in H;
    destruct (Nat.ltb (ps_i st) (List.length lines));
    try discriminate; try (injection H as <-; exact Hall).
  destruct (parseStep fuel opts lines st) as [st1|] eqn:E; cbn [bind] in H; [|discriminate].
  eapply IH; [exact H|]. eapply parseStep_tableCells; eauto.
Qed.

(** X7.  In every result of [parse], every header cell and every
    row cell of a table node at the top level is not empty, is trimmed and
    holds no vertical bar. *)
Theorem table_cells_are_trimmed opts markdown :
  exists result, parse opts markdown = Done result /\ Forall tableCells (nodes result).
Proof.
  destruct (parse_total_no_errors opts markdown) as (ns & E).
  eexists. split; [exact E|].
  revert E. unfold parse.
  destruct (parseLoop _ _ _ _) as [st|] eqn:E; cbn [bind]; [|discriminate].
  intros [= <- _]. eapply parseLoop_tableCells; [exact E|]. constructor.
Qed.

Lemma fieldNode_options m : Forall (cellOf (ch ",")) (optionsOf (fieldNode m)).
Proof.
  unfold fieldNode.
  repeat match goal with
         | |- context [if ?x then _ else _] => destruct x
         | |- context [match ?x with _ => _ end] => destruct x
         end; cbn [optionsOf]; try constructor.
  apply (proj1 (splitTrim_cells _ _)).
Qed.

Lemma buttonNode_options btn : optionsOf (buttonNode btn) = [].
Proof. unfold buttonNode. destruct (jsmatch innerRe btn); reflexivity. Qed.

(** X8.  For every line, the options of the node [parseLine]
    returns (a radio group or a dropdown), and of every field of the
    container it returns for a line of several fields or buttons, are not
    empty, are trimmed and hold no comma. *)
Theorem options_are_trimmed line :
  exists n, parseLine line = Done (Some n) /\ lineOptions n.
Proof.
  destruct (parseLine_total line) as (n & E). exists n. split; [exact E|].
  parseLine_cases E; subst n; cbn [lineOptions optionsOf];
    try (apply (proj1 (splitTrim_cells _ _))); try (constructor; fail).
  - apply Forall_forall. intros c Hc. apply in_map_iff in Hc.
    destruct Hc as (m & <- & _). apply fieldNode_options.
  - match goal with
    | E : multiButton _ = Some _ |- _ =>
        apply multiButton_inv in E; destruct E as (? & ? & _ & _ & _ & ->)
    end.
    cbn [lineOptions]. apply Forall_forall. intros c Hc. apply in_map_iff in Hc.
    destruct Hc as (b & <- & _). rewrite buttonNode_options. constructor.
Qed.

(** *** Nodes and lines *)

Lemma nonBlankFrom_step opts lines i :
  i < List.length lines ->
  nonBlankFrom opts lines i
  = (if truthy (lineAt opts lines i) then 1 else 0) + nonBlankFrom opts lines (S i).
Proof.
  unfold nonBlankFrom, lineAt. revert i.
  induction lines as [|l lines IH]; intros i Hi; [cbn in Hi; lia|].
  destruct i as [|i].
  - cbn [skipn map filter nth]. destruct (truthy (lineOf opts l)); reflexivity.
  - cbn [skipn nth]. apply IH. cbn in Hi. lia.
Qed.

Lemma nonBlankFrom_mono opts lines i j :
  i <= j -> nonBlankFrom opts lines j <= nonBlankFrom opts lines i.
Proof.
  induction 1 as [|j Hle IH]; [lia|].
  destruct (Nat.lt_ge_cases j (List.length lines)) as [Hj|Hj].
  - rewrite (nonBlankFrom_step opts lines j Hj) in IH. lia.
  - unfold nonBlankFrom at 1. rewrite skipn_all2 by lia. cbn. lia.
Qed.

Lemma parseStep_blank fuel opts lines st :
  truthy (lineAt opts lines (ps_i st)) = false ->
  parseStep fuel opts lines st
  = Done {| ps_i := ps_i st + 1; ps_nodes := ps_nodes st; ps_errors := ps_errors st |}.
Proof. intro H. unfold parseStep. rewrite H. reflexivity. Qed.

Lemma parseLoop_count opts lines : forall fuel st,
  2 * (List.length lines - ps_i st) + 1 <= fuel ->
  exists st', parseLoop fuel opts lines st = Done st'
    /\ List.length (ps_nodes st')
       <= List.length (ps_nodes st) + nonBlankFrom opts lines (ps_i st).
Proof.
  induction fuel as [|fuel IH]; intros st Hf; [lia|].
  cbn [parseLoop]. destruct (Nat.ltb (ps_i st) (List.length lines)) eqn:E;
    [apply Nat.ltb_lt in E | exists st; split; [reflexivity|lia]].
  rewrite (nonBlankFrom_step opts lines _ E).
  destruct (truthy (lineAt opts lines (ps_i st))) eqn:Et.
  - destruct (parseStep_total fuel opts lines st) as (st1 & Hs & Hlt); [lia|].
    rewrite Hs. cbn [bind].
    destruct (IH st1) as (st' & -> & Hc); [lia|].
    exists st'. split; [reflexivity|].
    pose proof (nonBlankFrom_mono opts lines (S (ps_i st)) (ps_i st1) Hlt) as Hm.
    destruct (parseStep_pushed _ _ _ _ _ Hs) as [Hn|(n & Hn & _)]; rewrite Hn in Hc;
      rewrite ?length_app in Hc; cbn [List.length] in Hc; lia.
  - rewrite parseStep_blank by exact Et. cbn [bind].
    destruct (IH {| ps_i := ps_i st + 1; ps_nodes := ps_nodes st; ps_errors := ps_errors st |})
      as (st' & -> & Hc); [cbn; lia|].
    exists st'. split; [reflexivity|]. cbn [ps_i ps_nodes] in Hc.
    replace (ps_i st + 1) with (S (ps_i st)) in Hc by lia. lia.
Qed.

(** X13.  [parse] returns at most as many top-level nodes as the
    input has lines that are not blank (after the treatment of [lineOf]):
    every step consumes at least one line and pushes at most one node, and
    a blank line pushes none. *)
Theorem one_node_per_line_at_most opts markdown :
  exists result, parse opts markdown = Done result
    /\ List.length (nodes result)
       <= List.length (filter truthy (map (lineOf opts) (split 10 markdown))).
Proof.
  unfold parse.
  destruct (parseLoop_count opts (split 10 markdown) (2 * List.length (split 10 markdown) + 1)
              {| ps_i := 0; ps_nodes := []; ps_errors := [] |}) as (st' & -> & Hc);
    [cbn; lia|].
  cbn [bind]. eexists. split; [reflexivity|]. exact Hc.
Qed.

(** ** The generators: escaping and inline rendering *)

(** *** Replacing one character *)

Lemma exec_from_chr p input : forall rest pos,
  (forallb (fun c => negb (p c)) rest = true
   /\ exec_from (Chr p) input pos rest = None)
  \/ (exists a c b, rest = a ++ c :: b
        /\ forallb (fun c => negb (p c)) a = true /\ p c = true
        /\ exec_from (Chr p) input pos rest
           = Some (MatchResult input (pos + List.length a) (S (pos + List.length a)) [])).
Proof.
  induction rest as [|c rest IH]; intro pos; cbn [exec_from].
  - left. split; reflexivity.
  - rewrite rmatch_chr. destruct (p c) eqn:E.
    + right. exists [], c, rest. cbn. rewrite Nat.add_0_r. auto.
    + destruct (IH (S pos)) as [(Hall & ->)|(a & c' & b & -> & Hall & Hc & ->)].
      * left. cbn. rewrite E. auto.
      * right. exists (c :: a), c', b. cbn. rewrite E, Hall, Hc.
        replace (pos + S (List.length a)) with (S pos + List.length a) by lia. auto.
Qed.

Lemma flat_map_keep (p : N -> bool) replacement : forall s,
  forallb (fun c => negb (p c)) s = true ->
  flat_map (fun x => if p x then replacement else [x]) s = s.
Proof.
  induction s as [|c s IH]; cbn; [reflexivity|].
  intro H. apply andb_true_iff in H. destruct H as (Hc & Hs).
  destruct (p c); [discriminate|]. cbn. rewrite IH by exact Hs. reflexivity.
Qed.

Lemma replaceMatches_chr p replacement : forall fuel pre rest,
  List.length rest < fuel ->
  replaceMatches (pre ++ rest) (List.length pre)
    (matchAll_from fuel (Chr p) (pre ++ rest) (List.length pre)) replacement
  = flat_map (fun x => if p x then replacement else [x]) rest.
Proof.
  induction fuel as [|fuel IH]; intros pre rest Hf; [lia|].
  cbn [matchAll_from]. rewrite skipn_app, skipn_all, Nat.sub_diag. cbn [skipn app].
  destruct (exec_from_chr p (pre ++ rest) rest (List.length pre))
    as [(Hall & ->)|(a & c & b & -> & Hall & Hc & ->)].
  - cbn [replaceMatches]. rewrite flat_map_keep by exact Hall.
    unfold slice. rewrite skipn_app, skipn_all, Nat.sub_diag. cbn [skipn app].
    apply firstn_all2. rewrite length_app. lia.
  - cbn [mr_end mr_index].
    replace (Nat.eqb (S (List.length pre + List.length a)) (List.length pre + List.length a))
      with false by (symmetry; apply Nat.eqb_neq; lia).
    replace (Nat.leb (S (List.length pre + List.length a)) (List.length (pre ++ a ++ c :: b)))
      with true by (symmetry; apply Nat.leb_le; rewrite !length_app; cbn; lia).
    cbn [replaceMatches mr_end mr_index].
    rewrite flat_map_app. cbn [flat_map]. rewrite Hc, flat_map_keep by exact Hall.
    f_equal.
    + change (c :: b) with ([c] ++ b). apply slice_at; reflexivity.
    + f_equal. specialize (IH (pre ++ a ++ [c]) b).
      replace (pre ++ a ++ c :: b) with ((pre ++ a ++ [c]) ++ b)
        by (rewrite <- !app_assoc; reflexivity).
      replace (S (List.length pre + List.length a)) with (List.length (pre ++ a ++ [c]))
        by (rewrite !length_app; cbn; lia).
      apply IH. rewrite length_app in Hf. cbn in Hf. lia.
Qed.

(** A global replacement of one character class is a character-wise
    substitution. *)
Lemma replace_chr p replacement s :
  replace (Chr p) replacement s
  = flat_map (fun x => if p x then replacement else [x]) s.
Proof.
  unfold replace, matchAll.
  apply (replaceMatches_chr p replacement (S (List.length s)) [] s). lia.
Qed.

Lemma flat_map_flat_map {A B C} (f : A -> list B) (g : B -> list C) : forall s,
  flat_map g (flat_map f s) = flat_map (fun x => flat_map g (f x)) s.
Proof.
  induction s as [|c s IH]; cbn; [reflexivity|].
  rewrite flat_map_app, IH. reflexivity.
Qed.

Lemma escapeHtml_flat text : escapeHtml text = flat_map htmlEntity text.
Proof.
  unfold escapeHtml, sym. rewrite !replace_chr, !flat_map_flat_map.
  apply flat_map_ext. intro x. unfold htmlEntity.
  destruct (N.eqb_spec (ch "&") x); [subst x; reflexivity|]. cbn [flat_map app].
  destruct (N.eqb_spec (ch "<") x); [subst x; reflexivity|]. cbn [flat_map app].
  destruct (N.eqb_spec (ch ">") x); [subst x; reflexivity|]. cbn [flat_map app].
  destruct (N.eqb_spec dquote x); [subst x; reflexivity|]. cbn [flat_map app].
  destruct (N.eqb_spec (ch "'") x); [subst x; reflexivity|]. reflexivity.
Qed.

Lemma escapeJSX_flat text : escapeJSX text = flat_map jsxEntity text.
Proof.
  unfold escapeJSX, sym. rewrite !replace_chr, !flat_map_flat_map.
  apply flat_map_ext. intro x. unfold jsxEntity.
  destruct (N.eqb_spec (ch "&") x); [subst x; reflexivity|]. cbn [flat_map app].
  destruct (N.eqb_spec (ch "<") x); [subst x; reflexivity|]. cbn [flat_map app].
  destruct (N.eqb_spec (ch ">") x); [subst x; reflexivity|]. cbn [flat_map app].
  destruct (N.eqb_spec dquote x); [subst x; reflexivity|]. cbn [flat_map app].
  destruct (N.eqb_spec (ch "{") x); [subst x; reflexivity|]. cbn [flat_map app].
  destruct (N.eqb_spec (ch "}") x); [subst x; reflexivity|]. reflexivity.
Qed.

(** *** Inline HTML *)

Lemma htmlEntity_plain c : htmlSpecial c = false -> htmlEntity c = [c].
Proof.
  unfold htmlSpecial, htmlEntity. intro H.
  repeat (apply orb_false_iff in H; destruct H as (H & ?)).
  repeat match goal with E : N.eqb _ c = false |- _ => rewrite E; clear E end.
  reflexivity.
Qed.

Lemma inlineHtml_app a b : inlineHtml a -> inlineHtml b -> inlineHtml (a ++ b).
Proof.
  intros Ha Hb. induction Ha as [|c w Hc Hw IH|c w Hc Hw IH|x w Hx IHx Hw IH|x w Hx IHx Hw IH].
  - exact Hb.
  - cbn [app]. apply inlineHtml_char; assumption.
  - rewrite <- app_assoc. apply inlineHtml_entity; assumption.
  - replace ((str "<strong>" ++ x ++ str "</strong>" ++ w) ++ b)
      with (str "<strong>" ++ x ++ str "</strong>" ++ (w ++ b))
      by (rewrite <- !app_assoc; reflexivity).
    apply inlineHtml_strong; assumption.
  - replace ((str "<em>" ++ x ++ str "</em>" ++ w) ++ b)
      with (str "<em>" ++ x ++ str "</em>" ++ (w ++ b))
      by (rewrite <- !app_assoc; reflexivity).
    apply inlineHtml_em; assumption.
Qed.

Lemma inlineHtml_escapeHtml text : inlineHtml (escapeHtml text).
Proof.
  rewrite escapeHtml_flat. induction text as [|c text IH]; cbn [flat_map]; [constructor|].
  destruct (htmlSpecial c) eqn:E.
  - apply inlineHtml_entity; assumption.
  - rewrite (htmlEntity_plain c E). apply inlineHtml_char; assumption.
Qed.

Lemma inlineHtml_wrap_strong a : inlineHtml a -> inlineHtml (str "<strong>" ++ a ++ str "</strong>").
Proof.
  intro H. rewrite <- (app_nil_r (str "</strong>")).
  apply inlineHtml_strong; [exact H|constructor].
Qed.

Lemma inlineHtml_wrap_em a : inlineHtml a -> inlineHtml (str "<em>" ++ a ++ str "</em>").
Proof.
  intro H. rewrite <- (app_nil_r (str "</em>")).
  apply inlineHtml_em; [exact H|constructor].
Qed.

Lemma renderInlineNode_inlineHtml : forall node, inlineHtml (renderInlineNode node).
Proof.
  fix IH 1. intros [level children|children|content|content|children|content
                   | | | | | | content v c n | | | | | | | | ];
    cbn [renderInlineNode]; try apply inlineHtml_escapeHtml.
  - assert (Hc : inlineHtml (List.concat (map renderInlineNode children))).
    { induction children as [|x xs IHxs]; cbn [map List.concat]; [constructor|].
      apply inlineHtml_app; [apply IH|exact IHxs]. }
    destruct children; [apply inlineHtml_escapeHtml|exact Hc].
  - apply inlineHtml_wrap_strong, inlineHtml_escapeHtml.
  - assert (Hc : inlineHtml (List.concat (map renderInlineNode children))).
    { induction children as [|x xs IHxs]; cbn [map List.concat]; [constructor|].
      apply inlineHtml_app; [apply IH|exact IHxs]. }
    destruct children; apply inlineHtml_wrap_strong; [apply inlineHtml_escapeHtml|exact Hc].
  - apply inlineHtml_wrap_em, inlineHtml_escapeHtml.
Qed.

(** X20.  Whatever the nodes, [renderInlineNodes] writes
    well-formed inline HTML: characters that need no escaping, entities,
    and balanced [strong] and [em] elements; no content of a node reaches
    the output unescaped. *)
Theorem rendered_inline_is_well_formed nodes : inlineHtml (renderInlineNodes nodes).
Proof.
  unfold renderInlineNodes. induction nodes as [|x xs IH]; cbn [map List.concat]; [constructor|].
  apply inlineHtml_app; [apply renderInlineNode_inlineHtml|exact IH].
Qed.

(** *** The two escapes *)

Lemma htmlEntity_safe c :
  forallb (fun x => negb (htmlSpecial x) || N.eqb (ch "&") x) (htmlEntity c) = true.
Proof.
  unfold htmlEntity.
  destruct (N.eqb_spec (ch "&") c); [reflexivity|].
  destruct (N.eqb_spec (ch "<") c); [reflexivity|].
  destruct (N.eqb_spec (ch ">") c); [reflexivity|].
  destruct (N.eqb_spec dquote c); [reflexivity|].
  destruct (N.eqb_spec (ch "'") c); [reflexivity|].
  cbn [forallb]. unfold htmlSpecial.
  repeat match goal with
         | H : _ <> c |- _ => apply N.eqb_neq in H; rewrite H; clear H
         end.
  reflexivity.
Qed.

Lemma jsxEntity_safe c :
  forallb (fun x => negb (jsxSpecial x) || N.eqb (ch "&") x) (jsxEntity c) = true.
Proof.
  unfold jsxEntity.
  destruct (N.eqb_spec (ch "&") c); [reflexivity|].
  destruct (N.eqb_spec (ch "<") c); [reflexivity|].
  destruct (N.eqb_spec (ch ">") c); [reflexivity|].
  destruct (N.eqb_spec dquote c); [reflexivity|].
  destruct (N.eqb_spec (ch "{") c); [reflexivity|].
  destruct (N.eqb_spec (ch "}") c); [reflexivity|].
  cbn [forallb]. unfold jsxSpecial.
  repeat match goal with
         | H : _ <> c |- _ => apply N.eqb_neq in H; rewrite H; clear H
         end.
  reflexivity.
Qed.

Lemma forallb_flat_map {A B} (p : B -> bool) (f : A -> list B) : forall s,
  (forall x, forallb p (f x) = true) -> forallb p (flat_map f s) = true.
Proof.
  intros s H. induction s as [|c s IH]; cbn [flat_map]; [reflexivity|].
  rewrite forallb_app, H, IH. reflexivity.
Qed.

(** X14.  The five replacement passes of [escapeHtml] amount to
    one substitution character by character: the empty text stays empty,
    and the escape of a text is the entity of its first character followed
    by the escape of the rest, so no pass escapes again what an earlier
    pass wrote. *)
Theorem escapeHtml_by_character :
  escapeHtml [] = []
  /\ forall c text, escapeHtml (c :: text) = htmlEntity c ++ escapeHtml text.
Proof.
  split; [reflexivity|]. intros c text. rewrite !escapeHtml_flat. reflexivity.
Qed.

(** X15.  The output of [escapeHtml] holds no angle bracket, no
    double quote and no apostrophe: of the escaped characters only the
    ampersand occurs in it. *)
Theorem escapeHtml_output text :
  forallb (fun x => negb (htmlSpecial x) || N.eqb (ch "&") x) (escapeHtml text) = true.
Proof. rewrite escapeHtml_flat. apply forallb_flat_map, htmlEntity_safe. Qed.

Ltac entity_inj :=
  let H := fresh "H" in
  intro H;
  repeat match goal with
         | H : context [N.eqb ?c ?x] |- _ =>
             is_var x; destruct (N.eqb_spec c x); [subst x|]
         end;
  cbn in H; injection H; intros; subst; try (split; reflexivity);
  exfalso; cbn in *; congruence.

Lemma htmlEntity_prefix x y a b :
  htmlEntity x ++ a = htmlEntity y ++ b -> x = y /\ a = b.
Proof. unfold htmlEntity, dquote. entity_inj. Qed.

Lemma jsxEntity_prefix x y a b :
  jsxEntity x ++ a = jsxEntity y ++ b -> x = y /\ a = b.
Proof. unfold jsxEntity, dquote. entity_inj. Qed.

Lemma htmlEntity_nonempty x a : htmlEntity x ++ a <> [].
Proof.
  unfold htmlEntity.
  repeat match goal with
         | |- context [N.eqb ?c ?x] => destruct (N.eqb c x)
         end; discriminate.
Qed.

Lemma jsxEntity_nonempty x a : jsxEntity x ++ a <> [].
Proof.
  unfold jsxEntity.
  repeat match goal with
         | |- context [N.eqb ?c ?x] => destruct (N.eqb c x)
         end; discriminate.
Qed.

(** X16.  [escapeHtml] is injective: two texts with the same
    escape are the same text. *)
Theorem escapeHtml_injective text1 text2 :
  escapeHtml text1 = escapeHtml text2 -> text1 = text2.
Proof.
  rewrite !escapeHtml_flat. revert text2.
  induction text1 as [|x a IH]; intros [|y b] H; cbn [flat_map] in H.
  - reflexivity.
  - symmetry in H. destruct (htmlEntity_nonempty _ _ H).
  - destruct (htmlEntity_nonempty _ _ H).
  - apply htmlEntity_prefix in H. destruct H as (-> & H). f_equal. apply IH. exact H.
Qed.

Lemma escapeHtml_injective_witness : str "a<b" ++ str "&c" = str "a<" ++ str "b&c".
Proof.
  apply (escapeHtml_injective (str "a<b" ++ str "&c") (str "a<" ++ str "b&c")).
  reflexivity.
Defined.

(** X17.  The six replacement passes of [escapeJSX] amount to one
    substitution character by character: the empty text stays empty, and
    the escape of a text is the entity of its first character followed by
    the escape of the rest. *)
Theorem escapeJSX_by_character :
  escapeJSX [] = []
  /\ forall c text, escapeJSX (c :: text) = jsxEntity c ++ escapeJSX text.
Proof.
  split; [reflexivity|]. intros c text. rewrite !escapeJSX_flat. reflexivity.
Qed.

(** X18.  The output of [escapeJSX] holds no angle bracket, no
    double quote and no brace: of the escaped characters only the
    ampersand occurs in it. *)
Theorem escapeJSX_output text :
  forallb (fun x => negb (jsxSpecial x) || N.eqb (ch "&") x) (escapeJSX text) = true.
Proof. rewrite escapeJSX_flat. apply forallb_flat_map, jsxEntity_safe. Qed.

(** X19.  [escapeJSX] is injective: two texts with the same escape
    are the same text. *)
Theorem escapeJSX_injective text1 text2 :
  escapeJSX text1 = escapeJSX text2 -> text1 = text2.
Proof.
  rewrite !escapeJSX_flat. revert text2.
  induction text1 as [|x a IH]; intros [|y b] H; cbn [flat_map] in H.
  - reflexivity.
  - symmetry in H. destruct (jsxEntity_nonempty _ _ H).
  - destruct (jsxEntity_nonempty _ _ H).
  - apply jsxEntity_prefix in H. destruct H as (-> & H). f_equal. apply IH. exact H.
Qed.

Lemma escapeJSX_injective_witness : str "a{b" ++ str "}c" = str "a{" ++ str "b}c".
Proof.
  apply (escapeJSX_injective (str "a{b" ++ str "}c") (str "a{" ++ str "b}c")).
  reflexivity.
Defined.

(** *** Inline JSX *)

Lemma jsxEntity_plain c : jsxSpecial c = false -> jsxEntity c = [c].
Proof.
  unfold jsxSpecial, jsxEntity. intro H.
  repeat (apply orb_false_iff in H; destruct H as (H & ?)).
  repeat match goal with E : N.eqb _ c = false |- _ => rewrite E; clear E end.
  reflexivity.
Qed.

Lemma inlineJsx_app a b : inlineJsx a -> inlineJsx b -> inlineJsx (a ++ b).
Proof.
  intros Ha Hb.
  induction Ha as [|c w Hc Hw IH|c w Hc Hw IH|i x w Hx IHx Hw IH|i x w Hx IHx Hw IH].
  - exact Hb.
  - cbn [app]. apply inlineJsx_char; assumption.
  - rewrite <- app_assoc. apply inlineJsx_entity; assumption.
  - replace ((str "<strong key={" ++ decimal i ++ str "}>" ++ x ++ str "</strong>" ++ w) ++ b)
      with (str "<strong key={" ++ decimal i ++ str "}>" ++ x ++ str "</strong>" ++ (w ++ b))
      by (rewrite <- !app_assoc; reflexivity).
    apply inlineJsx_strong; assumption.
  - replace ((str "<em key={" ++ decimal i ++ str "}>" ++ x ++ str "</em>" ++ w) ++ b)
      with (str "<em key={" ++ decimal i ++ str "}>" ++ x ++ str "</em>" ++ (w ++ b))
      by (rewrite <- !app_assoc; reflexivity).
    apply inlineJsx_em; assumption.
Qed.

Lemma inlineJsx_escapeJSX text : inlineJsx (escapeJSX text).
Proof.
  rewrite escapeJSX_flat. induction text as [|c text IH]; cbn [flat_map]; [constructor|].
  destruct (jsxSpecial c) eqn:E.
  - apply inlineJsx_entity; assumption.
  - rewrite (jsxEntity_plain c E). apply inlineJsx_char; assumption.
Qed.

Lemma inlineJsx_wrap_strong i a :
  inlineJsx a -> inlineJsx (str "<strong key={" ++ decimal i ++ str "}>" ++ a ++ str "</strong>").
Proof.
  intro H. rewrite <- (app_nil_r (str "</strong>")).
  apply inlineJsx_strong; [exact H|constructor].
Qed.

Lemma inlineJsx_wrap_em i a :
  inlineJsx a -> inlineJsx (str "<em key={" ++ decimal i ++ str "}>" ++ a ++ str "</em>").
Proof.
  intro H. rewrite <- (app_nil_r (str "</em>")).
  apply inlineJsx_em; [exact H|constructor].
Qed.

(** X21.  Whatever the node and the index,
    [generateInlineNode] writes well-formed inline JSX: characters that
    need no escaping, entities, and balanced [strong] and [em] elements
    with their key; no content of a node reaches the output unescaped. *)
Theorem generated_inline_is_well_formed : forall node index,
  inlineJsx (generateInlineNode node index).
Proof.
  fix IH 1. intros [level children|children|content|content|children|content
                   | | | | | | content v c n | | | | | | | | ] index;
    cbn [generateInlineNode]; try apply inlineJsx_escapeJSX.
  - assert (Hj : forall i, inlineJsx
      ((fix joined (children : list MarkdownNode) (i : nat) {struct children} : jsstring :=
          match children with
          | [] => []
          | child :: rest => generateInlineNode child i ++ joined rest (S i)
          end) children i)).
    { induction children as [|y ys IHys]; intro i; [constructor|].
      apply inlineJsx_app; [apply IH|apply IHys]. }
    destruct children; [apply inlineJsx_escapeJSX|apply Hj].
  - apply inlineJsx_wrap_strong, inlineJsx_escapeJSX.
  - apply inlineJsx_wrap_strong.
    match goal with |- inlineJsx (if truthy ?j then _ else _) =>
      assert (Hj : inlineJsx j); [|destruct (truthy j); [exact Hj|apply inlineJsx_escapeJSX]]
    end.
    generalize 0.
    induction children as [|y ys IHys]; intro i; [constructor|].
    apply inlineJsx_app; [apply IH|apply IHys].
  - apply inlineJsx_wrap_em, inlineJsx_escapeJSX.
Qed.
